(** * p4pktgen/core/strategy.py: graph-visitor strategies

    A shallow embedding of the three visitor strategies of
    [p4pktgen/core/strategy.py] (parser-path enumeration, path coverage and
    edge coverage of the control graph) together with the shared test-case
    generation loop of [ControlGraphVisitor].

    Python dictionaries and sets are finite maps and sets of stdpp; lists are
    lists.  The solver, the table solver, the test-case writer, the
    configuration and the statistics singleton are collaborators that live
    outside this file of the repository: calls made on them are appended to
    an explicit history kept in the state, and the values they hand back are
    functions of that history. *)

From stdpp Require Import base gmap sets list strings sorting.
From Stdlib Require Import ZArith Lia.

Open Scope string_scope.
Open Scope Z_scope.
Open Scope nat_scope.
Open Scope list_scope.

(** ** Results and control signals *)

(** [TestPathResult] (p4pktgen.core.test_cases): the strategies only ever
    compare a result with [SUCCESS] and [NO_PACKET_FOUND]; every other kind
    reported by the solver is opaque to them. *)
Inductive TestPathResult : Type :=
  | SUCCESS
  | NO_PACKET_FOUND
  | OTHER_RESULT (kind : nat).

(** [VisitResult] (p4pktgen.util.graph). *)
Inductive VisitResult : Type :=
  | CONTINUE
  | BACKTRACK
  | ABORT.

#[global] Instance TestPathResult_eq_dec : EqDecision TestPathResult.
Proof. solve_decision. Defined.

#[global] Instance VisitResult_eq_dec : EqDecision VisitResult.
Proof. solve_decision. Defined.

Definition TestPathResult_code (r : TestPathResult) : nat :=
  match r with
  | SUCCESS => 0
  | NO_PACKET_FOUND => 1
  | OTHER_RESULT k => S (S k)
  end.

Definition TestPathResult_of_code (n : nat) : TestPathResult :=
  match n with
  | 0 => SUCCESS
  | 1 => NO_PACKET_FOUND
  | S (S k) => OTHER_RESULT k
  end.

#[global] Instance TestPathResult_countable : Countable TestPathResult.
Proof.
  apply (inj_countable' TestPathResult_code TestPathResult_of_code).
  by intros [| |k].
Defined.

(** ** Edges

    A transition of the parser graph or of the control graph.  The code reads
    [e.src] and [e.dst], asks whether the edge is a [ParserErrorTransition],
    and uses edges as dictionary keys and set members; [cond] stands for the
    rest of the transition's identity (its branch condition). *)
Record Edge : Type := mkEdge {
  src : string;
  dst : string;
  is_ParserErrorTransition : bool;
  cond : nat
}.

#[global] Instance Edge_eq_dec : EqDecision Edge.
Proof. solve_decision. Defined.

#[global] Instance Edge_countable : Countable Edge.
Proof.
  apply (inj_countable'
           (fun e => (src e, dst e, is_ParserErrorTransition e, cond e))
           (fun t => match t with (s, d, b, c) => mkEdge s d b c end)).
  by intros [].
Defined.

(** ** Python built-ins used by the strategies *)

(** [d[k]] on a [defaultdict(int)]: a missing key reads as 0.  (Python also
    stores the 0 under the key; no later read can tell the difference.) *)
Definition getitem `{Countable K} (d : gmap K nat) (k : K) : nat :=
  default 0 (d !! k).

(** [d[k] += 1] on a [defaultdict(int)]. *)
Definition incr `{Countable K} (d : gmap K nat) (k : K) : gmap K nat :=
  <[k := S (getitem d k)]> d.

(** [sorted(l, key=key)]: Python's sort is stable and ascending.  The element
    taken from the front is placed before the first element of the already
    sorted rest whose key is not smaller, hence before every element with an
    equal key: elements with equal keys keep the order they came in. *)
Fixpoint insert_by {A} (key : A -> nat) (x : A) (l : list A) : list A :=
  match l with
  | [] => [x]
  | y :: l' =>
      if key x <=? key y then x :: y :: l' else y :: insert_by key x l'
  end.

Fixpoint sorted {A} (key : A -> nat) (l : list A) : list A :=
  match l with
  | [] => []
  | x :: l' => insert_by key x (sorted key l')
  end.

(** Ascending order of keys. *)
Definition key_le {A} (key : A -> nat) (a b : A) : Prop := key a <= key b.

(** [l[-1]]: [None] stands for the [IndexError] of an empty list. *)
Definition last_item {A} (l : list A) : option A := last l.

(** ** ParserGraphVisitor *)

Module ParserGraphVisitor.

(** The part of the HLIR the visitor reads:
    [hlir.get_parser_state(name).header_stack_extracts] and
    [hlir.get_header_stack(stack).size]. *)
Record Hlir : Type := mkHlir {
  header_stack_extracts : string -> list string;
  header_stack_size : string -> nat
}.

(** [count]: adds the header-stack extractions of one parser state to
    [stack_counts]; the sink is not a parser state. *)
Definition count (hlir : Hlir) (stack_counts : gmap string nat)
    (state_name : string) : gmap string nat :=
  if decide (state_name ≠ "sink") then
    foldl incr stack_counts (header_stack_extracts hlir state_name)
  else stack_counts.

Definition stack_counts_of (hlir : Hlir) (path_prefix : list Edge)
    : gmap string nat :=
  match path_prefix with
  | [] => ∅
  | e0 :: _ =>
      foldl (fun sc e => count hlir sc (dst e))
            (count hlir ∅ (src e0)) path_prefix
  end.

(** [any(hlir.get_header_stack(stack).size < count for ...)]. *)
Definition overflows (hlir : Hlir) (stack_counts : gmap string nat) : bool :=
  existsb (fun sc => header_stack_size hlir sc.1 <? sc.2)
          (map_to_list stack_counts).

Definition preprocess_edges (hlir : Hlir) (path_prefix onward_edges : list Edge)
    : list Edge :=
  let stack_counts := stack_counts_of hlir path_prefix in
  if overflows hlir stack_counts then
    filter (fun edge => is_ParserErrorTransition edge = true) onward_edges
  else onward_edges.

(** [visit]: a complete path is appended to [all_paths]. *)
Definition visit (all_paths : list (list Edge)) (path : list Edge)
    (is_complete_path : bool) : VisitResult * list (list Edge) :=
  (CONTINUE, if is_complete_path then all_paths ++ [path] else all_paths).

Definition backtrack (all_paths : list (list Edge)) : list (list Edge) :=
  all_paths.

(** The spec's reading of the count, to be compared with [stack_counts_of]:
    the nodes along a prefix are the source of its first edge followed by
    the destination of every edge, and a stack's count is the number of
    extraction events of that stack over those nodes (the sink has none). *)
Definition path_nodes (path_prefix : list Edge) : list string :=
  match path_prefix with
  | [] => []
  | e0 :: _ => src e0 :: map dst path_prefix
  end.

Definition node_extracts (hlir : Hlir) (state_name : string) : list string :=
  if decide (state_name = "sink") then []
  else header_stack_extracts hlir state_name.

Definition occurrences (stack : string) (l : list string) : nat :=
  length (filter (fun s => s = stack) l).

Definition extraction_count (hlir : Hlir) (path_prefix : list Edge)
    (stack : string) : nat :=
  occurrences stack (concat (map (node_extracts hlir) (path_nodes path_prefix))).

End ParserGraphVisitor.

(** ** Collaborators of the control-graph visitors *)

(** [Config()]: the options the visitors read.  An option that was not given
    is [None]; the numeric ones are Python integers. *)
Record Config : Type := mkConfig {
  get_extract_vl_variation : nat;
  get_num_test_cases : option Z;
  get_max_test_cases_per_path : option Z;
  get_do_consolidate_tables : bool;
  get_max_paths_per_parser_path : option Z;
  get_incremental : bool;
  get_record_statistics : bool
}.

(** [n == cap] where [n] is an integer and [cap] an integer or [None]. *)
Definition int_eq (n : Z) (cap : option Z) : bool :=
  match cap with
  | Some c => (n =? c)%Z
  | None => false
  end.

Module PathSolver.

(** The calls the visitors make on [self.path_solver] (the last one on
    [self.path_solver.solver]). *)
Inductive Call : Type :=
  | add_path_constraints (control_path : list Edge)
  | try_quick_solve (control_path : list Edge) (is_complete_control_path : bool)
  | solve_path
  | push
  | fix_random_constraints
  | generate_test_case (control_path : list Edge) (is_complete_control_path : bool)
  | pop
  | constrain_last_extract_vl_lengths (extract_vl_variation : nat)
  | reset.

#[global] Instance Call_eq_dec : EqDecision Call.
Proof. solve_decision. Defined.

(** What the solver answers, given every call it has received so far, the
    answered call being the last of them.  A generated test case and its
    packet list are opaque: a number names the pair. *)
Record Replies : Type := mkReplies {
  quick_solved : list Call -> TestPathResult;
  generated : list Call -> TestPathResult * nat;
  vl_constrained : list Call -> bool
}.


Definition pops (calls : list Call) : nat :=
  length (filter (fun c => c = pop) calls).

(** The solver's checkpoint stack after a sequence of calls: [push] saves a
    checkpoint (named by its position in the history), [pop] restores and
    drops the latest one; [None] when a [pop] finds no checkpoint. *)
Fixpoint replay (stack : list nat) (position : nat) (calls : list Call)
    : option (list nat) :=
  match calls with
  | [] => Some stack
  | push :: calls' => replay (position :: stack) (S position) calls'
  | pop :: calls' =>
      match stack with
      | [] => None
      | _ :: stack' => replay stack' (S position) calls'
      end
  | _ :: calls' => replay stack (S position) calls'
  end.

End PathSolver.

(** Exceptions the visitors themselves can raise. *)
Inductive Exception : Type :=
  | AssertionError
  | IndexError.

Inductive Outcome (A : Type) : Type :=
  | Return (a : A)
  | Raise (e : Exception).
Arguments Return {A} a.
Arguments Raise {A} e.

(** ** State

    Everything the control-graph visitors mutate: the visitor's own fields,
    the histories of its collaborators and the counters of [Statistics()].
    Logging and the wall-clock timings attached to a test case are left out. *)
Record State : Type := mkState {
  (* collaborators *)
  path_solver : list PathSolver.Call;
  table_solver : list (list Edge * bool);
  test_case_writer : list nat;
  (* Statistics() *)
  num_test_cases : Z;
  stats_per_control_path_edge : gmap Edge nat;
  num_covered_edges : nat;
  avg_full_path_len : list nat;
  avg_unsat_path_len : list nat;
  count_unsat_paths : nat;
  recorded : list (TestPathResult * bool);
  stats : gmap TestPathResult nat;
  (* ControlGraphVisitor *)
  results : gmap (list Edge * list Edge) TestPathResult;
  success_path_count : Z;
  (* EdgeCoverageGraphVisitor *)
  done_edges : gset Edge;
  edge_visits : gmap Edge nat
}.

Definition call (c : PathSolver.Call) (s : State) : State :=
  mkState (path_solver s ++ [c]) (table_solver s) (test_case_writer s)
    (num_test_cases s) (stats_per_control_path_edge s) (num_covered_edges s)
    (avg_full_path_len s) (avg_unsat_path_len s) (count_unsat_paths s)
    (recorded s) (stats s) (results s) (success_path_count s)
    (done_edges s) (edge_visits s).

Definition add_path (registration : list Edge * bool) (s : State) : State :=
  mkState (path_solver s) (table_solver s ++ [registration]) (test_case_writer s)
    (num_test_cases s) (stats_per_control_path_edge s) (num_covered_edges s)
    (avg_full_path_len s) (avg_unsat_path_len s) (count_unsat_paths s)
    (recorded s) (stats s) (results s) (success_path_count s)
    (done_edges s) (edge_visits s).

(** [test_case_writer.write(...)] followed by [num_test_cases += 1]. *)
Definition write (test_case : nat) (s : State) : State :=
  mkState (path_solver s) (table_solver s) (test_case_writer s ++ [test_case])
    (num_test_cases s + 1)%Z (stats_per_control_path_edge s) (num_covered_edges s)
    (avg_full_path_len s) (avg_unsat_path_len s) (count_unsat_paths s)
    (recorded s) (stats s) (results s) (success_path_count s)
    (done_edges s) (edge_visits s).

(** One step of the loop over [control_path] in [record_stats]. *)
Definition cover_edge (s : State) (e : Edge) : State :=
  mkState (path_solver s) (table_solver s) (test_case_writer s)
    (num_test_cases s) (incr (stats_per_control_path_edge s) e)
    (if getitem (stats_per_control_path_edge s) e =? 0
     then S (num_covered_edges s) else num_covered_edges s)
    (avg_full_path_len s) (avg_unsat_path_len s) (count_unsat_paths s)
    (recorded s) (stats s) (results s) (success_path_count s)
    (done_edges s) (edge_visits s).

Definition record_full_path_len (n : nat) (s : State) : State :=
  mkState (path_solver s) (table_solver s) (test_case_writer s)
    (num_test_cases s) (stats_per_control_path_edge s) (num_covered_edges s)
    (avg_full_path_len s ++ [n]) (avg_unsat_path_len s) (count_unsat_paths s)
    (recorded s) (stats s) (results s) (success_path_count s)
    (done_edges s) (edge_visits s).

Definition record_unsat_path (n : nat) (s : State) : State :=
  mkState (path_solver s) (table_solver s) (test_case_writer s)
    (num_test_cases s) (stats_per_control_path_edge s) (num_covered_edges s)
    (avg_full_path_len s) (avg_unsat_path_len s ++ [n]) (S (count_unsat_paths s))
    (recorded s) (stats s) (results s) (success_path_count s)
    (done_edges s) (edge_visits s).

Definition statistics_record (r : TestPathResult * bool) (s : State) : State :=
  mkState (path_solver s) (table_solver s) (test_case_writer s)
    (num_test_cases s) (stats_per_control_path_edge s) (num_covered_edges s)
    (avg_full_path_len s) (avg_unsat_path_len s) (count_unsat_paths s)
    (recorded s ++ [r]) (stats s) (results s) (success_path_count s)
    (done_edges s) (edge_visits s).

Definition set_result (path : list Edge * list Edge) (result : TestPathResult)
    (s : State) : State :=
  mkState (path_solver s) (table_solver s) (test_case_writer s)
    (num_test_cases s) (stats_per_control_path_edge s) (num_covered_edges s)
    (avg_full_path_len s) (avg_unsat_path_len s) (count_unsat_paths s)
    (recorded s) (stats s) (<[path := result]> (results s)) (success_path_count s)
    (done_edges s) (edge_visits s).

Definition incr_success_path_count (s : State) : State :=
  mkState (path_solver s) (table_solver s) (test_case_writer s)
    (num_test_cases s) (stats_per_control_path_edge s) (num_covered_edges s)
    (avg_full_path_len s) (avg_unsat_path_len s) (count_unsat_paths s)
    (recorded s) (stats s) (results s) (success_path_count s + 1)%Z
    (done_edges s) (edge_visits s).

Definition incr_stats (result : TestPathResult) (s : State) : State :=
  mkState (path_solver s) (table_solver s) (test_case_writer s)
    (num_test_cases s) (stats_per_control_path_edge s) (num_covered_edges s)
    (avg_full_path_len s) (avg_unsat_path_len s) (count_unsat_paths s)
    (recorded s) (incr (stats s) result) (results s) (success_path_count s)
    (done_edges s) (edge_visits s).

Definition set_edge_visits (visits : gmap Edge nat) (s : State) : State :=
  mkState (path_solver s) (table_solver s) (test_case_writer s)
    (num_test_cases s) (stats_per_control_path_edge s) (num_covered_edges s)
    (avg_full_path_len s) (avg_unsat_path_len s) (count_unsat_paths s)
    (recorded s) (stats s) (results s) (success_path_count s)
    (done_edges s) visits.

Definition set_done_edges (done : gset Edge) (s : State) : State :=
  mkState (path_solver s) (table_solver s) (test_case_writer s)
    (num_test_cases s) (stats_per_control_path_edge s) (num_covered_edges s)
    (avg_full_path_len s) (avg_unsat_path_len s) (count_unsat_paths s)
    (recorded s) (stats s) (results s) (success_path_count s)
    done (edge_visits s).

(** ** Module-level helpers of strategy.py *)

Definition record_path_result (result : TestPathResult)
    (is_complete_control_path : bool) : bool :=
  if bool_decide (result ≠ SUCCESS) || is_complete_control_path then true
  else false.

Definition ge_than_not_none (lhs rhs : option Z) : bool :=
  match rhs, lhs with
  | Some r, Some l => (l >=? r)%Z
  | _, _ => false
  end.

(** Modelled from the spec: [record_test_case] of p4pktgen/core/test_cases.py,
    which is imported by strategy.py but defined elsewhere.  The spec has one
    recording policy, "a result is recorded iff it is SUCCESS on a complete
    path, or any non-SUCCESS outcome", and says that the same predicate gates
    continued output emission.  The visitors below take the function as an
    argument; this definition is what the examples pass for it. *)
Definition record_test_case_policy (result : TestPathResult)
    (is_complete_control_path : bool) : bool :=
  bool_decide (result ≠ SUCCESS) || is_complete_control_path.

(** ** ControlGraphVisitor *)

Module ControlGraphVisitor.
Section Visitor.

Variable cfg : Config.
Variable solver : PathSolver.Replies.
Variable record_test_case : TestPathResult -> bool -> bool.
Variable parser_path : list Edge.

(** Lines 117-142 of one pass through the loop body: the full solve, the
    checkpoint around the randomization constraints of a complete path, and
    the classification of the path. *)
Definition solve_and_classify (control_path : list Edge)
    (is_complete_control_path : bool) (s : State)
    : TestPathResult * nat * State :=
  let s := call PathSolver.solve_path s in
  let fix_random := is_complete_control_path in
  let s := if fix_random
           then call PathSolver.fix_random_constraints (call PathSolver.push s)
           else s in
  let s := call (PathSolver.generate_test_case control_path
                   is_complete_control_path) s in
  let '(result, test_case) := PathSolver.generated solver (path_solver s) in
  let s := if fix_random then call PathSolver.pop s else s in
  (result, test_case, s).

Inductive LoopExit : Type := Break | Again.

(** The body of [while True]. *)
Definition loop_body (control_path : list Edge)
    (is_complete_control_path : bool)
    (results : list TestPathResult) (s : State)
    : LoopExit * list TestPathResult * State :=
  let '(result, test_case, s) :=
    solve_and_classify control_path is_complete_control_path s in
  let results := results ++ [result] in
  if negb (record_test_case result is_complete_control_path) then
    (Break, results, s)
  else if get_do_consolidate_tables cfg then
    (Break, results, add_path (control_path, is_complete_control_path) s)
  else
    let s := write test_case s in
    if int_eq (num_test_cases s) (get_num_test_cases cfg)
       || int_eq (Z.of_nat (length results)) (get_max_test_cases_per_path cfg)
       || bool_decide (result = NO_PACKET_FOUND)
    then (Break, results, s)
    else
      let s := call (PathSolver.constrain_last_extract_vl_lengths
                       (get_extract_vl_variation cfg)) s in
      if negb (PathSolver.vl_constrained solver (path_solver s)) then
        if int_eq 0 (get_max_test_cases_per_path cfg)
        then (Break, results, s)
        else (Again, results, s)
      else (Again, results, s).

(** [while True]: [None] when the loop has not left after [fuel] passes. *)
Fixpoint while_true (fuel : nat) (control_path : list Edge)
    (is_complete_control_path : bool)
    (results : list TestPathResult) (s : State)
    : option (list TestPathResult * State) :=
  match fuel with
  | 0 => None
  | S fuel' =>
      match loop_body control_path is_complete_control_path results s with
      | (Break, results, s) => Some (results, s)
      | (Again, results, s) =>
          while_true fuel' control_path is_complete_control_path results s
      end
  end.

(** The state in which the generation loop is entered: the path constraints
    have been added and the quick solve has been tried. *)
Definition constrained (control_path : list Edge)
    (is_complete_control_path : bool) (s : State) : State :=
  call (PathSolver.try_quick_solve control_path is_complete_control_path)
    (call (PathSolver.add_path_constraints control_path) s).

Definition generate_test_case (fuel : nat) (control_path : list Edge)
    (is_complete_control_path : bool) (s : State)
    : option (Outcome TestPathResult * State) :=
  let s := constrained control_path is_complete_control_path s in
  let result := PathSolver.quick_solved solver (path_solver s) in
  if bool_decide (result = SUCCESS) then
    if record_path_result result is_complete_control_path
       || record_test_case result is_complete_control_path
    then Some (Raise AssertionError, s)
    else Some (Return result, s)
  else
    let max_path_test_cases := get_max_test_cases_per_path cfg in
    let do_consolidate_tables := get_do_consolidate_tables cfg in
    if do_consolidate_tables && negb (int_eq 1 max_path_test_cases) then
      Some (Raise AssertionError, s)
    else
      match while_true fuel control_path is_complete_control_path [] s with
      | None => None
      | Some (results, s) =>
          match results with
          | [] => Some (Raise IndexError, s)
          | result :: _ =>
              let s := if negb (get_incremental cfg)
                       then call PathSolver.reset s else s in
              Some (Return result, s)
          end
      end.

Definition record_stats (control_path : list Edge)
    (is_complete_control_path : bool) (result : TestPathResult) (s : State)
    : State :=
  let s :=
    if bool_decide (result = SUCCESS) && is_complete_control_path then
      foldl cover_edge
        (record_full_path_len (length (parser_path ++ control_path)) s)
        control_path
    else s in
  let s :=
    if bool_decide (result = NO_PACKET_FOUND) then
      record_unsat_path (length (parser_path ++ control_path)) s
    else s in
  let s :=
    if get_record_statistics cfg then
      statistics_record (result, is_complete_control_path) s
    else s in
  if record_path_result result is_complete_control_path then
    let path := (parser_path, control_path) in
    let s := set_result path result s in
    let s :=
      if bool_decide (result = SUCCESS) && is_complete_control_path then
        incr_success_path_count s
      else s in
    incr_stats result s
  else s.

Definition visit_result (result : TestPathResult) (s : State) : VisitResult :=
  if ge_than_not_none (Some (num_test_cases s)) (get_num_test_cases cfg) then
    ABORT
  else if ge_than_not_none (Some (success_path_count s))
            (get_max_paths_per_parser_path cfg) then
    BACKTRACK
  else if bool_decide (result ≠ SUCCESS) then
    BACKTRACK
  else CONTINUE.

End Visitor.
End ControlGraphVisitor.

(** ** PathCoverageGraphVisitor *)

Module PathCoverageGraphVisitor.
Section Visitor.

Variable cfg : Config.
Variable solver : PathSolver.Replies.
Variable record_test_case : TestPathResult -> bool -> bool.
Variable parser_path : list Edge.

Definition preprocess_edges (_path edges : list Edge) : list Edge := edges.

Definition visit (fuel : nat) (control_path : list Edge)
    (is_complete_control_path : bool) (s : State)
    : option (Outcome VisitResult * State) :=
  let s := call PathSolver.push s in
  match ControlGraphVisitor.generate_test_case cfg solver record_test_case
          fuel control_path is_complete_control_path s with
  | None => None
  | Some (Raise e, s) => Some (Raise e, s)
  | Some (Return result, s) =>
      let s := ControlGraphVisitor.record_stats cfg parser_path
                 control_path is_complete_control_path result s in
      Some (Return (ControlGraphVisitor.visit_result cfg result s), s)
  end.

Definition backtrack (s : State) : State := call PathSolver.pop s.

End Visitor.
End PathCoverageGraphVisitor.

(** ** EdgeCoverageGraphVisitor *)

Module EdgeCoverageGraphVisitor.
Section Visitor.

Variable cfg : Config.
Variable solver : PathSolver.Replies.
Variable record_test_case : TestPathResult -> bool -> bool.
Variable parser_path : list Edge.
(** [self.graph.get_neighbors]: the outgoing edges of a node. *)
Variable get_neighbors : string -> list Edge.

(** The loop that distributes [edges] over the two lists; the pair is
    ([done_edges], [non_done_edges]). *)
Definition partition_step (done : gset Edge)
    (lists : list Edge * list Edge) (e : Edge) : list Edge * list Edge :=
  if bool_decide (e ∈ done) then (lists.1 ++ [e], lists.2)
  else (lists.1, lists.2 ++ [e]).

Definition preprocess_edges (s : State) (_path edges : list Edge)
    : list Edge :=
  let '(done_edges_l, non_done_edges) :=
    foldl (partition_step (done_edges s)) ([], []) edges in
  let least_visits_order :=
    sorted (getitem (edge_visits s)) non_done_edges
    ++ sorted (getitem (edge_visits s)) done_edges_l in
  rev least_visits_order.

(** The loop over [reversed(control_path[:-1])] that marks as done every
    edge whose destination has all its outgoing edges done. *)
Definition mark_step (done : gset Edge) (edge : Edge) : gset Edge :=
  let child_edges := get_neighbors (dst edge) in
  if forallb (fun ce => bool_decide (ce ∈ done)) child_edges
  then {[edge]} ∪ done else done.

Definition mark_done (edges : list Edge) (done : gset Edge) : gset Edge :=
  foldl mark_step done edges.

Definition visit (fuel : nat) (control_path : list Edge)
    (is_complete_control_path : bool) (s : State)
    : option (Outcome VisitResult * State) :=
  let s := call PathSolver.push s in
  match last_item control_path with
  | None => Some (Raise IndexError, s)
  | Some final_edge =>
      if bool_decide (final_edge ∈ done_edges s)
         && forallb (fun e => 0 <? getitem (edge_visits s) e) control_path
      then Some (Return BACKTRACK, s)
      else
        match ControlGraphVisitor.generate_test_case cfg solver
                record_test_case fuel control_path
                is_complete_control_path s with
        | None => None
        | Some (Raise e, s) => Some (Raise e, s)
        | Some (Return result, s) =>
            let s := ControlGraphVisitor.record_stats cfg parser_path
                       control_path is_complete_control_path result s in
            if record_test_case result is_complete_control_path
               && bool_decide (result = SUCCESS)
            then
              if negb is_complete_control_path then
                Some (Raise AssertionError, s)
              else
                let s := set_edge_visits
                           (foldl incr (edge_visits s) control_path) s in
                let s := set_done_edges ({[final_edge]} ∪ done_edges s) s in
                let s := set_done_edges
                           (mark_done (rev (removelast control_path))
                              (done_edges s)) s in
                Some (Return (ControlGraphVisitor.visit_result cfg result s), s)
            else
              Some (Return (ControlGraphVisitor.visit_result cfg result s), s)
        end
  end.

Definition backtrack (s : State) : State := call PathSolver.pop s.

End Visitor.
End EdgeCoverageGraphVisitor.

(** ** Sequences of visitor calls

    The traversal engine (p4pktgen.util.graph) drives a control-graph
    strategy through its [visit] and [backtrack] methods only.  A run is a
    sequence of such requests; it stops without a state when a [visit] raises
    or its generation loop does not leave within [fuel] passes. *)

Inductive Strategy : Type :=
  | PathCoverage
  | EdgeCoverage.

Inductive Request : Type :=
  | visit_request (control_path : list Edge) (is_complete_control_path : bool)
  | backtrack_request.

#[global] Instance Request_eq_dec : EqDecision Request.
Proof. solve_decision. Defined.

Section Requests.

Variable cfg : Config.
Variable solver : PathSolver.Replies.
Variable record_test_case : TestPathResult -> bool -> bool.
Variable parser_path : list Edge.
Variable get_neighbors : string -> list Edge.

Definition visit (strategy : Strategy) (fuel : nat)
    (control_path : list Edge) (is_complete_control_path : bool) (s : State)
    : option (Outcome VisitResult * State) :=
  match strategy with
  | PathCoverage =>
      PathCoverageGraphVisitor.visit cfg solver record_test_case
        parser_path fuel control_path is_complete_control_path s
  | EdgeCoverage =>
      EdgeCoverageGraphVisitor.visit cfg solver record_test_case
        parser_path get_neighbors fuel control_path
        is_complete_control_path s
  end.

Definition backtrack (strategy : Strategy) (s : State) : State :=
  match strategy with
  | PathCoverage => PathCoverageGraphVisitor.backtrack s
  | EdgeCoverage => EdgeCoverageGraphVisitor.backtrack s
  end.

Fixpoint run (strategy : Strategy) (fuel : nat) (requests : list Request)
    (s : State) : option State :=
  match requests with
  | [] => Some s
  | visit_request control_path is_complete_control_path :: requests' =>
      match visit strategy fuel control_path is_complete_control_path s with
      | Some (Return _, s') => run strategy fuel requests' s'
      | _ => None
      end
  | backtrack_request :: requests' =>
      run strategy fuel requests' (backtrack strategy s)
  end.

(** [visit; backtrack; visit; backtrack; ...], one pair per path. *)
Definition alternating (paths : list (list Edge * bool)) : list Request :=
  flat_map (fun p => [visit_request p.1 p.2; backtrack_request]) paths.

End Requests.

(** ** Examples used to exercise the definitions *)

Module Examples.

Definition e_start : Edge := mkEdge "start" "t1" false 0.
Definition e_accept : Edge := mkEdge "t1" "accept" false 0.
Definition e_drop : Edge := mkEdge "t1" "drop" false 1.

Definition graph (node : string) : list Edge :=
  if decide (node = "start") then [e_start]
  else if decide (node = "t1") then [e_accept; e_drop]
  else [].

Definition s0 : State :=
  mkState [] [] [] 0%Z ∅ 0 [] [] 0 [] ∅ ∅ 0%Z ∅ ∅.

(** A solver that finds every path satisfiable and names each test case by
    the number of calls it has received. *)
Definition sat_solver : PathSolver.Replies :=
  PathSolver.mkReplies
    (fun _ => NO_PACKET_FOUND)
    (fun calls => (SUCCESS, length calls))
    (fun _ => false).

(** A solver whose quick solve already succeeds. *)
Definition quick_solver : PathSolver.Replies :=
  PathSolver.mkReplies
    (fun _ => SUCCESS)
    (fun calls => (SUCCESS, length calls))
    (fun _ => false).

(** A solver whose successive classifications differ: the first is
    [SUCCESS], every later one is [NO_PACKET_FOUND]. *)
Definition varying_solver : PathSolver.Replies :=
  PathSolver.mkReplies
    (fun _ => OTHER_RESULT 0)
    (fun calls =>
       (if PathSolver.pops calls =? 0 then SUCCESS else NO_PACKET_FOUND,
        length calls))
    (fun _ => true).


(** A depth-first descent: into [e_start], on into [e_accept] and back, on
    into [e_drop] and back, and back out of [e_start]. *)
Definition descent : list Request :=
  [visit_request [e_start] false;
   visit_request [e_start; e_accept] true; backtrack_request;
   visit_request [e_start; e_drop] true; backtrack_request;
   backtrack_request].

Definition cfg_default : Config :=
  mkConfig 0 None (Some 1%Z) false None false false.

(** The state of the edge strategy once the path through [e_accept] has
    been visited and backtracked from. *)
Definition after_first_path : State :=
  default s0
    (run cfg_default sat_solver record_test_case_policy [] graph
       EdgeCoverage 5 (alternating [([e_start; e_accept], true)]) s0).

Definition cfg_three_per_path : Config :=
  mkConfig 0 None (Some 3%Z) false None false false.

Definition cfg_consolidate_cap_2 : Config :=
  mkConfig 0 None (Some 2%Z) true None false false.

Definition cfg_global_cap_0 : Config :=
  mkConfig 0 (Some 0%Z) (Some 1%Z) false None false false.

(** A parser with a header stack [vlan] of size 2 that is extracted once in
    each of three states. *)
Definition hlir : ParserGraphVisitor.Hlir :=
  ParserGraphVisitor.mkHlir
    (fun state => if decide (state = "sink") then [] else ["vlan"])
    (fun _ => 2).

Definition p_edge (a b : string) : Edge := mkEdge a b false 0.
Definition p_error (a : string) : Edge := mkEdge a "sink" true 0.

Definition three_extracts : list Edge :=
  [p_edge "start" "parse_vlan"; p_edge "parse_vlan" "parse_vlan2"].

End Examples.

(** ** Notions used to state the properties *)

(** A cap is reached by a counter when it is a number and the counter is at
    least that number. *)
Definition reached (counter : Z) (cap : option Z) : Prop :=
  exists c : Z, cap = Some c /\ (c <= counter)%Z.

(** A sequence of solver calls is checkpoint-neutral when, replayed on any
    checkpoint stack, it neither fails nor changes the stack. *)
Definition neutral (calls : list PathSolver.Call) : Prop :=
  forall (stack : list nat) (position : nat),
    PathSolver.replay stack position calls = Some stack.

(** What a piece of [generate_test_case] may touch: it extends the solver's
    history by checkpoint-neutral calls and leaves the coverage state of the
    edge strategy and the success-path counter alone. *)
Definition extends_neutrally (s s' : State) : Prop :=
  (exists calls, path_solver s' = path_solver s ++ calls /\ neutral calls)
  /\ done_edges s' = done_edges s
  /\ edge_visits s' = edge_visits s
  /\ success_path_count s' = success_path_count s.

(** ** Further notions *)

(** Number of [reset] calls in a history of solver calls. *)
Definition resets (calls : list PathSolver.Call) : nat :=
  length (filter (fun c => c = PathSolver.reset) calls).

(** Number of edges whose visit counter is not zero. *)
Definition covered (visits : gmap Edge nat) : nat :=
  size (filter (fun kv : Edge * nat => 0 < kv.2) visits).

(** The fields [generate_test_case] has no business with: the statistics of
    [record_stats], the result map and the coverage state. *)
Definition same_records (s s' : State) : Prop :=
  stats_per_control_path_edge s' = stats_per_control_path_edge s
  /\ num_covered_edges s' = num_covered_edges s
  /\ avg_full_path_len s' = avg_full_path_len s
  /\ avg_unsat_path_len s' = avg_unsat_path_len s
  /\ count_unsat_paths s' = count_unsat_paths s
  /\ recorded s' = recorded s
  /\ stats s' = stats s
  /\ results s' = results s
  /\ success_path_count s' = success_path_count s
  /\ done_edges s' = done_edges s
  /\ edge_visits s' = edge_visits s.

(** A request sequence is nested at a depth when no [backtrack] comes without
    an open [visit]: the depth counts the visits not yet backtracked from. *)
Fixpoint nested (depth : nat) (requests : list Request) : bool :=
  match requests with
  | [] => true
  | visit_request _ _ :: requests' => nested (S depth) requests'
  | backtrack_request :: requests' =>
      match depth with
      | 0 => false
      | S depth' => nested depth' requests'
      end
  end.

Definition visits_in (requests : list Request) : nat :=
  length (filter (fun r => r ≠ backtrack_request) requests).

Definition backtracks_in (requests : list Request) : nat :=
  length (filter (fun r => r = backtrack_request) requests).

(** The parser strategy driven over a sequence of [visit] calls. *)
Definition visit_all (visits : list (list Edge * bool))
    (all_paths : list (list Edge)) : list (list Edge) :=
  foldl (fun paths v => (ParserGraphVisitor.visit paths v.1 v.2).2)
        all_paths visits.

(** What a run of the generation loop may have done to a state [s] when it
    has reached [s'] with [results'] from [results]: test cases written, each
    counted once and at most one per pass, and, when [left] says the loop has
    been left, at most one registration with the table solver, made in place
    of any writing. *)
Definition loop_effects (consolidate left : bool)
    (registration : list Edge * bool)
    (results : list TestPathResult) (s : State)
    (results' : list TestPathResult) (s' : State) : Prop :=
  same_records s s'
  /\ resets (path_solver s') = resets (path_solver s)
  /\ length results <= length results'
  /\ exists written registered,
       test_case_writer s' = test_case_writer s ++ written
       /\ num_test_cases s' = (num_test_cases s + Z.of_nat (length written))%Z
       /\ length results + length written <= length results'
       /\ table_solver s' = table_solver s ++ registered
       /\ (consolidate = true -> written = [])
       /\ (registered = []
           \/ (registered = [registration]
               /\ consolidate = true /\ left = true)).

(** * Properties *)

(** ** The built-ins *)

Section Builtins.

Context `{Countable K}.

Lemma getitem_incr (d : gmap K nat) (k k' : K) :
  getitem (incr d k) k' = if decide (k = k') then S (getitem d k') else getitem d k'.
Proof.
  unfold incr, getitem. case_decide as Hk.
  - subst. by rewrite lookup_insert_eq.
  - by rewrite lookup_insert_ne.
Qed.

Lemma getitem_foldl_incr (l : list K) (d : gmap K nat) (k : K) :
  getitem (foldl incr d l) k = getitem d k + length (filter (fun x => x = k) l).
Proof.
  revert d. induction l as [|x l IH]; intros d; simpl.
  - lia.
  - rewrite IH, getitem_incr, filter_cons.
    repeat case_decide; simpl; congruence || lia.
Qed.

Lemma getitem_pos_lookup (d : gmap K nat) (k : K) :
  0 < getitem d k -> d !! k = Some (getitem d k).
Proof. unfold getitem. destruct (d !! k); simpl; [done | lia]. Qed.

Lemma lookup_getitem (d : gmap K nat) (k : K) (v : nat) :
  d !! k = Some v -> getitem d k = v.
Proof. unfold getitem. by intros ->. Qed.

End Builtins.

Section Sorted.

Context {A : Type} (key : A -> nat).

Lemma insert_by_perm (x : A) (l : list A) : insert_by key x l ≡ₚ x :: l.
Proof.
  induction l as [|y l IH]; simpl; [done |].
  destruct (key x <=? key y); [done |].
  rewrite IH. apply Permutation_swap.
Qed.

Lemma sorted_perm (l : list A) : sorted key l ≡ₚ l.
Proof.
  induction l as [|x l IH]; simpl; [done |].
  by rewrite insert_by_perm, IH.
Qed.

Lemma insert_by_ascending (x : A) (l : list A) :
  StronglySorted (key_le key) l -> StronglySorted (key_le key) (insert_by key x l).
Proof.
  induction 1 as [|y l Hl IH Hy]; simpl.
  - repeat constructor.
  - destruct (Nat.leb_spec (key x) (key y)) as [Hxy|Hxy].
    + constructor; [by constructor |].
      constructor; [done |].
      eapply Forall_impl; [exact Hy |]. unfold key_le. intros; simpl in *; lia.
    + constructor; [done |].
      rewrite insert_by_perm. constructor; [unfold key_le; lia | done].
Qed.

Lemma sorted_ascending (l : list A) : StronglySorted (key_le key) (sorted key l).
Proof.
  induction l as [|x l IH]; simpl; [constructor |].
  by apply insert_by_ascending.
Qed.

(** Stability: among the elements with one and the same key nothing moves. *)
Lemma insert_by_stable (k : nat) (x : A) (l : list A) :
  filter (fun a => key a = k) (insert_by key x l)
  = filter (fun a => key a = k) (x :: l).
Proof.
  induction l as [|y l IH]; simpl; [done |].
  destruct (Nat.leb_spec (key x) (key y)) as [Hxy|Hxy]; [done |].
  rewrite filter_cons, IH, !filter_cons.
  repeat case_decide; simpl; congruence || lia.
Qed.

Lemma sorted_stable (k : nat) (l : list A) :
  filter (fun a => key a = k) (sorted key l) = filter (fun a => key a = k) l.
Proof.
  induction l as [|x l IH]; simpl; [done |].
  rewrite insert_by_stable, !filter_cons, IH. done.
Qed.

End Sorted.

(** ** ParserGraphVisitor.preprocess_edges *)

Section ParserPaths.

Import ParserGraphVisitor.
Variable hlir : Hlir.

Lemma count_getitem (sc : gmap string nat) (state_name stack : string) :
  getitem (count hlir sc state_name) stack
  = getitem sc stack + occurrences stack (node_extracts hlir state_name).
Proof.
  unfold count, node_extracts, occurrences.
  destruct (decide (state_name = "sink")) as [->|Hne].
  - rewrite decide_False by naive_solver. simpl. lia.
  - rewrite decide_True by done. apply getitem_foldl_incr.
Qed.

Lemma occurrences_app (stack : string) (l1 l2 : list string) :
  occurrences stack (l1 ++ l2) = occurrences stack l1 + occurrences stack l2.
Proof. unfold occurrences. by rewrite filter_app, length_app. Qed.

Lemma foldl_count_getitem (edges : list Edge) (sc : gmap string nat)
    (stack : string) :
  getitem (foldl (fun sc e => count hlir sc (dst e)) sc edges) stack
  = getitem sc stack
    + occurrences stack (concat (map (node_extracts hlir) (map dst edges))).
Proof.
  revert sc. induction edges as [|e edges IH]; intros sc; simpl.
  - unfold occurrences. simpl. lia.
  - rewrite IH, count_getitem, occurrences_app. lia.
Qed.

Lemma stack_counts_of_getitem (path_prefix : list Edge) (stack : string) :
  getitem (stack_counts_of hlir path_prefix) stack
  = extraction_count hlir path_prefix stack.
Proof.
  unfold stack_counts_of, extraction_count, path_nodes.
  destruct path_prefix as [|e0 rest]; [done |].
  rewrite foldl_count_getitem, count_getitem.
  change (map (node_extracts hlir) (src e0 :: map dst (e0 :: rest)))
    with (node_extracts hlir (src e0)
          :: map (node_extracts hlir) (map dst (e0 :: rest))).
  rewrite concat_cons, occurrences_app.
  unfold getitem at 1. rewrite lookup_empty. simpl. lia.
Qed.

Lemma overflows_true (path_prefix : list Edge) :
  overflows hlir (stack_counts_of hlir path_prefix) = true
  <-> exists stack,
        header_stack_size hlir stack < extraction_count hlir path_prefix stack.
Proof.
  unfold overflows. rewrite existsb_exists. split.
  - intros [[stack n] [Hin Hlt]]. exists stack.
    apply list_elem_of_In, elem_of_map_to_list in Hin.
    apply lookup_getitem in Hin. rewrite stack_counts_of_getitem in Hin.
    apply Nat.ltb_lt in Hlt. simpl in Hlt. lia.
  - intros [stack Hlt]. rewrite <- stack_counts_of_getitem in Hlt.
    exists (stack, getitem (stack_counts_of hlir path_prefix) stack). split.
    + apply list_elem_of_In, elem_of_map_to_list, getitem_pos_lookup. lia.
    + apply Nat.ltb_lt. simpl. lia.
Qed.

End ParserPaths.

(** C2.  The counts [preprocess_edges] accumulates are, stack by stack, the
    number of extraction events over the nodes of the prefix (the source of
    the first edge, then every destination).  When some stack's count exceeds
    its declared size the result is exactly the parser error transitions among
    the onward edges, in their order (none if there are none); otherwise the
    onward edges come back unchanged.  With a stack of size 2 extracted 3 times
    and onward edges one error edge and one normal edge, in either order, the
    result is the error edge alone. *)
Theorem preprocess_edges_header_stack_bound
    (hlir : ParserGraphVisitor.Hlir) (path_prefix onward_edges : list Edge) :
  (forall stack,
      getitem (ParserGraphVisitor.stack_counts_of hlir path_prefix) stack
      = ParserGraphVisitor.extraction_count hlir path_prefix stack)
  /\ ((exists stack,
          ParserGraphVisitor.header_stack_size hlir stack
          < ParserGraphVisitor.extraction_count hlir path_prefix stack) ->
      ParserGraphVisitor.preprocess_edges hlir path_prefix onward_edges
      = filter (fun e => is_ParserErrorTransition e = true) onward_edges)
  /\ ((forall stack,
          ParserGraphVisitor.extraction_count hlir path_prefix stack
          <= ParserGraphVisitor.header_stack_size hlir stack) ->
      ParserGraphVisitor.preprocess_edges hlir path_prefix onward_edges
      = onward_edges)
  /\ (forall stack error_edge normal_edge,
        ParserGraphVisitor.header_stack_size hlir stack = 2 ->
        ParserGraphVisitor.extraction_count hlir path_prefix stack = 3 ->
        is_ParserErrorTransition error_edge = true ->
        is_ParserErrorTransition normal_edge = false ->
        ParserGraphVisitor.preprocess_edges hlir path_prefix
          [error_edge; normal_edge] = [error_edge]
        /\ ParserGraphVisitor.preprocess_edges hlir path_prefix
             [normal_edge; error_edge] = [error_edge]).
Proof.
  assert (Hover : (exists stack,
             ParserGraphVisitor.header_stack_size hlir stack
             < ParserGraphVisitor.extraction_count hlir path_prefix stack) ->
           forall edges,
             ParserGraphVisitor.preprocess_edges hlir path_prefix edges
             = filter (fun e => is_ParserErrorTransition e = true) edges).
  { intros Hex edges. unfold ParserGraphVisitor.preprocess_edges.
    apply overflows_true in Hex. by rewrite Hex. }
  split; [apply stack_counts_of_getitem |].
  split; [intros Hex; by apply Hover |].
  split.
  - intros Hall. unfold ParserGraphVisitor.preprocess_edges.
    destruct (ParserGraphVisitor.overflows hlir _) eqn:Ho; [| done].
    apply overflows_true in Ho as [stack Hlt]. specialize (Hall stack). lia.
  - intros stack error_edge normal_edge Hsize Hcount Herr Hnorm.
    rewrite !Hover by (exists stack; lia).
    rewrite !filter_cons, filter_nil.
    repeat case_decide; simpl in *; first [done | congruence].
Qed.

Lemma preprocess_edges_header_stack_bound_witness :
  ParserGraphVisitor.header_stack_size Examples.hlir "vlan" = 2
  /\ ParserGraphVisitor.extraction_count Examples.hlir
       Examples.three_extracts "vlan" = 3
  /\ ParserGraphVisitor.preprocess_edges Examples.hlir Examples.three_extracts
       [Examples.p_error "parse_vlan2"; Examples.p_edge "parse_vlan2" "parse_ip"]
     = [Examples.p_error "parse_vlan2"]
  /\ ParserGraphVisitor.preprocess_edges Examples.hlir
       [Examples.p_edge "start" "parse_vlan"]
       [Examples.p_error "parse_vlan"; Examples.p_edge "parse_vlan" "parse_ip"]
     = [Examples.p_error "parse_vlan"; Examples.p_edge "parse_vlan" "parse_ip"].
Proof.
  split; [reflexivity |]. split; [reflexivity |]. split.
  - apply (preprocess_edges_header_stack_bound Examples.hlir
             Examples.three_extracts [] ) with (stack := "vlan");
      reflexivity.
  - apply (preprocess_edges_header_stack_bound Examples.hlir
             [Examples.p_edge "start" "parse_vlan"]).
    intros stack. unfold ParserGraphVisitor.extraction_count. simpl.
    unfold ParserGraphVisitor.occurrences. simpl.
    rewrite !filter_cons, filter_nil. repeat case_decide; simpl; lia.
Defined.

(** ** ControlGraphVisitor.visit_result *)

Lemma ge_than_not_none_reached (counter : Z) (cap : option Z) :
  ge_than_not_none (Some counter) cap = true <-> reached counter cap.
Proof.
  unfold ge_than_not_none, reached. destruct cap as [c|].
  - rewrite Z.geb_leb, Z.leb_le. split.
    + intros Hle. by exists c.
    + intros (c' & [= <-] & Hle). done.
  - split; [done |]. by intros (c' & [=] & _).
Qed.

Lemma ge_than_not_none_not_reached (counter : Z) (cap : option Z) :
  ge_than_not_none (Some counter) cap = false <-> ¬ reached counter cap.
Proof.
  rewrite <- ge_than_not_none_reached.
  destruct (ge_than_not_none _ _); naive_solver.
Qed.

(** The order of the stopping policy.  [visit_result] answers [ABORT] when the
    global test-case counter has reached the global cap; otherwise [BACKTRACK] when
    the success-path counter has reached the per-parser-path cap; otherwise
    [BACKTRACK] when the result is not [SUCCESS]; otherwise [CONTINUE].  A cap
    is reached when it is a number and the counter is at least that number:
    only a cap that is unset ([None]) is never reached, whatever the
    counter. *)
Theorem visit_result_policy (cfg : Config) (result : TestPathResult) (s : State) :
  (reached (num_test_cases s) (get_num_test_cases cfg) ->
     ControlGraphVisitor.visit_result cfg result s = ABORT)
  /\ (¬ reached (num_test_cases s) (get_num_test_cases cfg) ->
      reached (success_path_count s) (get_max_paths_per_parser_path cfg) ->
      ControlGraphVisitor.visit_result cfg result s = BACKTRACK)
  /\ (¬ reached (num_test_cases s) (get_num_test_cases cfg) ->
      ¬ reached (success_path_count s) (get_max_paths_per_parser_path cfg) ->
      result ≠ SUCCESS ->
      ControlGraphVisitor.visit_result cfg result s = BACKTRACK)
  /\ (¬ reached (num_test_cases s) (get_num_test_cases cfg) ->
      ¬ reached (success_path_count s) (get_max_paths_per_parser_path cfg) ->
      result = SUCCESS ->
      ControlGraphVisitor.visit_result cfg result s = CONTINUE)
  /\ (forall counter : Z, ¬ reached counter None)
  /\ (get_num_test_cases cfg = None ->
      get_max_paths_per_parser_path cfg = None ->
      ControlGraphVisitor.visit_result cfg result s
      = if decide (result = SUCCESS) then CONTINUE else BACKTRACK).
Proof.
  unfold ControlGraphVisitor.visit_result.
  repeat split.
  - intros H1. apply ge_than_not_none_reached in H1. by rewrite H1.
  - intros H1 H2. apply ge_than_not_none_not_reached in H1.
    apply ge_than_not_none_reached in H2. by rewrite H1, H2.
  - intros H1 H2 Hr. apply ge_than_not_none_not_reached in H1, H2.
    rewrite H1, H2. by rewrite bool_decide_eq_true_2.
  - intros H1 H2 ->. apply ge_than_not_none_not_reached in H1, H2.
    by rewrite H1, H2.
  - intros counter (c & [=] & _).
  - intros -> ->. simpl.
    destruct (decide (result = SUCCESS)) as [->|Hne]; [done |].
    by rewrite bool_decide_eq_true_2.
Qed.

Lemma visit_result_policy_witness :
  ControlGraphVisitor.visit_result
    (mkConfig 0 (Some 3%Z) (Some 1%Z) false (Some 2%Z) false false)
    SUCCESS (write 7 (write 5 (write 2 Examples.s0))) = ABORT
  /\ ControlGraphVisitor.visit_result
       (mkConfig 0 (Some 3%Z) (Some 1%Z) false (Some 2%Z) false false)
       SUCCESS
       (incr_success_path_count (incr_success_path_count Examples.s0))
     = BACKTRACK
  /\ ControlGraphVisitor.visit_result
       (mkConfig 0 (Some 3%Z) (Some 1%Z) false (Some 2%Z) false false)
       NO_PACKET_FOUND Examples.s0 = BACKTRACK
  /\ ControlGraphVisitor.visit_result
       (mkConfig 0 (Some 3%Z) (Some 1%Z) false (Some 2%Z) false false)
       SUCCESS Examples.s0 = CONTINUE
  /\ ControlGraphVisitor.visit_result Examples.cfg_default SUCCESS
       (write 7 (write 5 (write 2 Examples.s0))) = CONTINUE.
Proof.
  split; [| split; [| split; [| split]]].
  - apply visit_result_policy. exists 3%Z. simpl. split; [done | lia].
  - refine (proj1 (proj2 (visit_result_policy _ _ _)) _ _).
    + intros (c & [= <-] & Hle). simpl in Hle. lia.
    + exists 2%Z. simpl. split; [done | lia].
  - refine (proj1 (proj2 (proj2 (visit_result_policy _ _ _))) _ _ _).
    + intros (c & [= <-] & Hle). simpl in Hle. lia.
    + intros (c & [= <-] & Hle). simpl in Hle. lia.
    + done.
  - refine (proj1 (proj2 (proj2 (proj2 (visit_result_policy _ _ _)))) _ _ _).
    + intros (c & [= <-] & Hle). simpl in Hle. lia.
    + intros (c & [= <-] & Hle). simpl in Hle. lia.
    + done.
  - apply (visit_result_policy Examples.cfg_default SUCCESS); reflexivity.
Defined.

(** [visit_result] at a cap of 0: with the global cap configured as 0 the
    answer is [ABORT] although no test case has been generated, and with the
    per-parser-path cap configured as 0 a [SUCCESS] is answered
    [BACKTRACK]. *)
Lemma visit_result_cap_zero :
  get_num_test_cases Examples.cfg_global_cap_0 = Some 0%Z
  /\ num_test_cases Examples.s0 = 0%Z
  /\ ControlGraphVisitor.visit_result Examples.cfg_global_cap_0 SUCCESS
       Examples.s0 = ABORT
  /\ ControlGraphVisitor.visit_result
       (mkConfig 0 None (Some 1%Z) false (Some 0%Z) false false)
       SUCCESS Examples.s0 = BACKTRACK.
Proof. repeat split. Qed.


(** ** EdgeCoverageGraphVisitor.preprocess_edges *)

Lemma partition_loop (done : gset Edge) (edges done_l non_done_l : list Edge) :
  foldl (EdgeCoverageGraphVisitor.partition_step done) (done_l, non_done_l) edges
  = (done_l ++ filter (fun e => e ∈ done) edges,
     non_done_l ++ filter (fun e => e ∉ done) edges).
Proof.
  revert done_l non_done_l.
  induction edges as [|e edges IH]; intros done_l non_done_l; simpl.
  - by rewrite !app_nil_r.
  - cbn [foldl].
    destruct (EdgeCoverageGraphVisitor.partition_step done
                (done_l, non_done_l) e) as [d n] eqn:Hstep.
    rewrite IH. unfold EdgeCoverageGraphVisitor.partition_step in Hstep.
    rewrite !filter_cons.
    case_bool_decide; simplify_eq/=; repeat case_decide; try done;
      by rewrite <- ?app_assoc.
Qed.

(** C8.  [preprocess_edges] returns the reverse of: the candidate edges that
    are not done, sorted by visit count, followed by the candidate edges that
    are done, sorted by visit count; so the reverse of what it returns lists
    the not-done edges first and the done edges after them.  Each sorted group
    is in ascending order of visit count, holds exactly the edges of its group
    (with their multiplicities), and keeps edges of equal visit count in the
    order the candidates had. *)
Theorem preprocess_edges_least_visits_order
    (s : State) (path edges : list Edge) :
  let visits := getitem (edge_visits s) in
  let non_done := filter (fun e => e ∉ done_edges s) edges in
  let done := filter (fun e => e ∈ done_edges s) edges in
  EdgeCoverageGraphVisitor.preprocess_edges s path edges
  = rev (sorted visits non_done ++ sorted visits done)
  /\ rev (EdgeCoverageGraphVisitor.preprocess_edges s path edges)
     = sorted visits non_done ++ sorted visits done
  /\ StronglySorted (key_le visits) (sorted visits non_done)
  /\ StronglySorted (key_le visits) (sorted visits done)
  /\ sorted visits non_done ≡ₚ non_done
  /\ sorted visits done ≡ₚ done
  /\ (forall n : nat,
        filter (fun e => visits e = n) (sorted visits non_done)
        = filter (fun e => visits e = n) non_done
        /\ filter (fun e => visits e = n) (sorted visits done)
           = filter (fun e => visits e = n) done).
Proof.
  intros visits non_done done.
  assert (Heq : EdgeCoverageGraphVisitor.preprocess_edges s path edges
                = rev (sorted visits non_done ++ sorted visits done)).
  { unfold EdgeCoverageGraphVisitor.preprocess_edges.
    by rewrite partition_loop. }
  split; [exact Heq |].
  split; [by rewrite Heq, rev_involutive |].
  split; [apply sorted_ascending |].
  split; [apply sorted_ascending |].
  split; [apply sorted_perm |].
  split; [apply sorted_perm |].
  intros n. split; apply sorted_stable.
Qed.

(** ** Checkpoints in a history of solver calls *)

Lemma replay_app (calls1 calls2 : list PathSolver.Call)
    (stack : list nat) (position : nat) :
  PathSolver.replay stack position (calls1 ++ calls2)
  = match PathSolver.replay stack position calls1 with
    | Some stack' =>
        PathSolver.replay stack' (position + length calls1) calls2
    | None => None
    end.
Proof.
  revert stack position.
  induction calls1 as [|c calls1 IH]; intros stack position; simpl.
  - by rewrite Nat.add_0_r.
  - destruct c; try destruct stack; rewrite ?IH; try done;
      by replace (S position + length calls1)
        with (position + S (length calls1)) by lia.
Qed.


Lemma neutral_nil : neutral [].
Proof. by intros stack position. Qed.

Lemma neutral_app (calls1 calls2 : list PathSolver.Call) :
  neutral calls1 -> neutral calls2 -> neutral (calls1 ++ calls2).
Proof.
  intros H1 H2 stack position. by rewrite replay_app, H1, H2.
Qed.

Lemma neutral_call (c : PathSolver.Call) :
  c ≠ PathSolver.push -> c ≠ PathSolver.pop -> neutral [c].
Proof. intros Hpush Hpop stack position. by destruct c. Qed.

Lemma neutral_checkpointed (calls : list PathSolver.Call) :
  neutral calls -> neutral (PathSolver.push :: calls ++ [PathSolver.pop]).
Proof.
  intros Hn stack position. simpl. by rewrite replay_app, Hn.
Qed.




(** ** The generation loop *)

Lemma extends_neutrally_refl (s : State) : extends_neutrally s s.
Proof.
  split; [| done]. exists []. split; [by rewrite app_nil_r | apply neutral_nil].
Qed.

Lemma extends_neutrally_trans (s1 s2 s3 : State) :
  extends_neutrally s1 s2 -> extends_neutrally s2 s3 -> extends_neutrally s1 s3.
Proof.
  intros [(c1 & E1 & N1) (D1 & V1 & S1)] [(c2 & E2 & N2) (D2 & V2 & S2)].
  split; [| repeat split; congruence].
  exists (c1 ++ c2). split; [| by apply neutral_app].
  by rewrite E2, E1, app_assoc.
Qed.

Lemma extends_neutrally_call (c : PathSolver.Call) (s : State) :
  c ≠ PathSolver.push -> c ≠ PathSolver.pop -> extends_neutrally s (call c s).
Proof.
  intros Hpush Hpop. split; [| done].
  exists [c]. split; [done | by apply neutral_call].
Qed.

Section GenerationLoop.

Import ControlGraphVisitor.
Variable cfg : Config.
Variable solver : PathSolver.Replies.
Variable record_test_case : TestPathResult -> bool -> bool.

Lemma solve_and_classify_extends control_path complete s :
  extends_neutrally s (solve_and_classify solver control_path complete s).2.
Proof.
  unfold solve_and_classify. destruct complete.
  - destruct (PathSolver.generated solver _) as [result test_case].
    split; [| done]. simpl.
    exists ([PathSolver.solve_path]
            ++ PathSolver.push
               :: [PathSolver.fix_random_constraints;
                   PathSolver.generate_test_case control_path true]
               ++ [PathSolver.pop]).
    split; [by rewrite <- !app_assoc |].
    apply neutral_app; [by apply neutral_call |].
    apply neutral_checkpointed.
    apply (neutral_app [_] [_]); by apply neutral_call.
  - destruct (PathSolver.generated solver _) as [result test_case].
    split; [| done]. simpl.
    exists ([PathSolver.solve_path]
            ++ [PathSolver.generate_test_case control_path false]).
    split; [by rewrite <- !app_assoc |].
    apply neutral_app; by apply neutral_call.
Qed.

Lemma loop_body_spec control_path complete results s :
  let '(_, results', s') :=
    loop_body cfg solver record_test_case control_path complete results s in
  results' = results
             ++ [(solve_and_classify solver control_path complete s).1.1]
  /\ extends_neutrally s s'.
Proof.
  unfold loop_body.
  pose proof (solve_and_classify_extends control_path complete s) as Hext.
  destruct (solve_and_classify solver control_path complete s)
    as [[result test_case] s1]. simpl in Hext |- *.
  repeat match goal with
         | |- context [if ?b then _ else _] => destruct b
         end; (split; [done |]);
    try exact Hext;
    (eapply extends_neutrally_trans; [exact Hext |]);
    try (by split; [exists []; split;
                      [by rewrite app_nil_r | apply neutral_nil] | done]);
    by (split; [eexists [_]; split; [done | by apply neutral_call] | done]).
Qed.

Lemma while_true_spec fuel control_path complete results s results' s' :
  while_true cfg solver record_test_case fuel control_path complete results s
  = Some (results', s') ->
  (exists more,
      results' = results
                 ++ (solve_and_classify solver control_path complete s).1.1
                    :: more)
  /\ extends_neutrally s s'.
Proof.
  revert results s.
  induction fuel as [|fuel IH]; intros results s Hloop; simpl in Hloop;
    [done |].
  pose proof (loop_body_spec control_path complete results s) as Hbody.
  destruct (loop_body cfg solver record_test_case control_path complete
              results s) as [[[|] results1] s1];
    destruct Hbody as [-> Hext].
  - simplify_eq. split; [by exists [] | done].
  - apply IH in Hloop as [[more ->] Hext']. split.
    + eexists. by rewrite <- app_assoc.
    + by eapply extends_neutrally_trans.
Qed.

End GenerationLoop.

Section GenerateTestCase.

Import ControlGraphVisitor.
Variable cfg : Config.
Variable solver : PathSolver.Replies.
Variable record_test_case : TestPathResult -> bool -> bool.

(** A pass that goes round again has not filled the per-path cap. *)
Lemma loop_body_again control_path complete results s results' s' :
  loop_body cfg solver record_test_case control_path complete results s
  = (Again, results', s') ->
  int_eq (Z.of_nat (length results')) (get_max_test_cases_per_path cfg)
  = false.
Proof.
  unfold loop_body.
  destruct (solve_and_classify solver control_path complete s)
    as [[result test_case] s1].
  destruct (negb _); [done |].
  destruct (get_do_consolidate_tables cfg); [done |].
  destruct (int_eq (num_test_cases _) _); [done |].
  destruct (int_eq (Z.of_nat _) _) eqn:Hcap; [done |].
  destruct (bool_decide _); [done |]. simpl.
  destruct (negb _); [destruct (int_eq 0 _) |]; intros [= <- _];
    exact Hcap.
Qed.

(** With a per-path cap of [n >= 1] the loop leaves within [n] passes. *)
Lemma while_true_terminates (n fuel : nat) control_path complete results s :
  get_max_test_cases_per_path cfg = Some (Z.of_nat n) ->
  length results < n ->
  n - length results <= fuel ->
  is_Some (while_true cfg solver record_test_case fuel control_path complete
             results s).
Proof.
  intros Hcap. revert results s.
  induction fuel as [|fuel IH]; intros results s Hlt Hfuel; [lia |].
  simpl.
  pose proof (loop_body_spec cfg solver record_test_case control_path
                complete results s) as Hbody.
  destruct (loop_body cfg solver record_test_case control_path complete
              results s) as [[[|] results1] s1] eqn:Hloop;
    destruct Hbody as [Hres _]; [done |].
  apply loop_body_again in Hloop. rewrite Hcap in Hloop. simpl in Hloop.
  apply Z.eqb_neq in Hloop.
  assert (length results1 = S (length results))
    by (rewrite Hres, length_app; simpl; lia).
  apply IH; lia.
Qed.

End GenerateTestCase.

(** C10.  When the generation loop has been left, [results] is not empty: it
    starts empty, every pass through the loop body appends exactly one result
    before it can leave, and the loop is left only from inside a pass.  So
    [results[0]] exists and [generate_test_case] never raises [IndexError]. *)
Theorem results_nonempty_after_loop
    (cfg : Config) (solver : PathSolver.Replies)
    (record_test_case : TestPathResult -> bool -> bool)
    (fuel : nat) (control_path : list Edge) (complete : bool)
    (s : State) (results : list TestPathResult) (s' : State) :
  ControlGraphVisitor.while_true cfg solver record_test_case fuel control_path
    complete [] s = Some (results, s') ->
  results ≠ []
  /\ is_Some (head results)
  /\ (forall results0 s0,
        exists result,
          (ControlGraphVisitor.loop_body cfg solver record_test_case
             control_path complete results0 s0).1.2 = results0 ++ [result])
  /\ (forall s1 s2,
        ControlGraphVisitor.generate_test_case cfg solver record_test_case
          fuel control_path complete s1 ≠ Some (Raise IndexError, s2)).
Proof.
  intros Hloop.
  apply while_true_spec in Hloop as [[more ->] _].
  split; [done |]. split; [by eexists |]. split.
  - intros results0 s0.
    pose proof (loop_body_spec cfg solver record_test_case control_path
                  complete results0 s0) as Hbody.
    destruct (ControlGraphVisitor.loop_body _ _ _ _ _ _ _) as [[ex r1] s1].
    destruct Hbody as [-> _]. by eexists.
  - intros s1 s2. unfold ControlGraphVisitor.generate_test_case.
    destruct (bool_decide _).
    { destruct (_ || _); congruence. }
    destruct (_ && _); [congruence |].
    destruct (ControlGraphVisitor.while_true _ _ _ _ _ _ _ _)
      as [[results1 s3]|] eqn:Hloop1; [| congruence].
    apply while_true_spec in Hloop1 as [[more1 ->] _]. simpl. congruence.
Qed.

Lemma results_nonempty_after_loop_witness :
  exists s',
    ControlGraphVisitor.while_true Examples.cfg_three_per_path
      Examples.varying_solver record_test_case_policy 5
      [Examples.e_start; Examples.e_accept] true [] Examples.s0
    = Some ([SUCCESS; NO_PACKET_FOUND], s')
    /\ [SUCCESS; NO_PACKET_FOUND] ≠ [].
Proof.
  eexists. split; [vm_compute; reflexivity |].
  eapply (results_nonempty_after_loop Examples.cfg_three_per_path
            Examples.varying_solver record_test_case_policy 5
            [Examples.e_start; Examples.e_accept] true Examples.s0).
  vm_compute. reflexivity.
Defined.

(** C7.  When the quick solve does not report [SUCCESS], so that the
    generation loop runs, a result returned by [generate_test_case] is the
    classification of the first pass through the loop, whatever the later
    passes produce.  With a per-path cap of [n >= 1] (and [n = 1] in
    table-consolidation mode) the call does return, within [n] passes. *)
Theorem generate_test_case_returns_first_result
    (cfg : Config) (solver : PathSolver.Replies)
    (record_test_case : TestPathResult -> bool -> bool)
    (fuel : nat) (control_path : list Edge) (complete : bool) (s : State) :
  let s0 := ControlGraphVisitor.constrained control_path complete s in
  let first :=
    (ControlGraphVisitor.solve_and_classify solver control_path complete s0).1.1 in
  PathSolver.quick_solved solver (path_solver s0) ≠ SUCCESS ->
  (forall result s',
      ControlGraphVisitor.generate_test_case cfg solver record_test_case fuel
        control_path complete s = Some (Return result, s') ->
      result = first)
  /\ (forall n : nat,
        get_max_test_cases_per_path cfg = Some (Z.of_nat n) ->
        1 <= n <= fuel ->
        (get_do_consolidate_tables cfg = true -> n = 1) ->
        exists s',
          ControlGraphVisitor.generate_test_case cfg solver record_test_case
            fuel control_path complete s = Some (Return first, s')).
Proof.
  intros s0 first Hquick.
  assert (Hret : forall result s',
             ControlGraphVisitor.generate_test_case cfg solver
               record_test_case fuel control_path complete s
             = Some (Return result, s') -> result = first).
  { intros result s'. unfold ControlGraphVisitor.generate_test_case.
    fold s0. rewrite bool_decide_eq_false_2 by done.
    destruct (_ && _); [done |].
    destruct (ControlGraphVisitor.while_true _ _ _ _ _ _ _ _)
      as [[results s1]|] eqn:Hloop; [| done].
    apply while_true_spec in Hloop as [[more ->] _]. simpl.
    by intros [= <- _]. }
  split; [exact Hret |].
  intros n Hcap Hn Hcons.
  destruct (while_true_terminates cfg solver record_test_case n fuel
              control_path complete [] s0 Hcap) as [[results s1] Hloop];
    [simpl; lia | simpl; lia |].
  pose proof Hloop as Hspec.
  apply while_true_spec in Hspec as [[more ->] _].
  assert (Hgen : exists s',
             ControlGraphVisitor.generate_test_case cfg solver
               record_test_case fuel control_path complete s
             = Some (Return first, s')).
  { unfold ControlGraphVisitor.generate_test_case. fold s0.
    rewrite bool_decide_eq_false_2 by done.
    destruct (get_do_consolidate_tables cfg) eqn:Hdo.
    - rewrite Hcap, (Hcons eq_refl). simpl. rewrite Hloop. simpl.
      by eexists.
    - simpl. rewrite Hloop. simpl. by eexists. }
  exact Hgen.
Qed.

Lemma generate_test_case_returns_first_result_witness :
  exists s',
    ControlGraphVisitor.generate_test_case Examples.cfg_three_per_path
      Examples.varying_solver record_test_case_policy 5
      [Examples.e_start; Examples.e_accept] true Examples.s0
    = Some (Return SUCCESS, s')
    /\ PathSolver.generated Examples.varying_solver
         (path_solver Examples.s0
            ++ [PathSolver.add_path_constraints
                  [Examples.e_start; Examples.e_accept];
                PathSolver.try_quick_solve
                  [Examples.e_start; Examples.e_accept] true;
                PathSolver.solve_path; PathSolver.push;
                PathSolver.fix_random_constraints;
                PathSolver.generate_test_case
                  [Examples.e_start; Examples.e_accept] true])
       = (SUCCESS, 6)
    /\ test_case_writer s' = [6; 12].
Proof.
  destruct (proj2 (generate_test_case_returns_first_result
              Examples.cfg_three_per_path Examples.varying_solver
              record_test_case_policy 5
              [Examples.e_start; Examples.e_accept] true Examples.s0
              ltac:(vm_compute; discriminate))
              3 eq_refl ltac:(lia) ltac:(discriminate)) as [s' Hgen].
  exists s'. split; [exact Hgen |]. split; [reflexivity |].
  vm_compute in Hgen. by injection Hgen as <-.
Defined.

(** C6.  When the quick solve reports [SUCCESS] on an incomplete control path
    (and [record_test_case] would not record a [SUCCESS] on an incomplete
    path, which is what the assertion of the early return checks),
    [generate_test_case] returns [SUCCESS] without a single pass through the
    generation loop, whatever the fuel: the solver has only received the path
    constraints and the quick solve, no test case has been written, the global
    test-case counter is unchanged and nothing has been registered with the
    table solver. *)
Theorem quick_success_on_incomplete_path
    (cfg : Config) (solver : PathSolver.Replies)
    (record_test_case : TestPathResult -> bool -> bool)
    (fuel : nat) (control_path : list Edge) (s : State) :
  PathSolver.quick_solved solver
    (path_solver (ControlGraphVisitor.constrained control_path false s))
  = SUCCESS ->
  record_test_case SUCCESS false = false ->
  exists s',
    ControlGraphVisitor.generate_test_case cfg solver record_test_case fuel
      control_path false s = Some (Return SUCCESS, s')
    /\ path_solver s'
       = path_solver s
         ++ [PathSolver.add_path_constraints control_path;
             PathSolver.try_quick_solve control_path false]
    /\ test_case_writer s' = test_case_writer s
    /\ num_test_cases s' = num_test_cases s
    /\ table_solver s' = table_solver s.
Proof.
  intros Hquick Hrec.
  exists (ControlGraphVisitor.constrained control_path false s).
  split.
  - unfold ControlGraphVisitor.generate_test_case.
    rewrite Hquick. simpl. by rewrite Hrec.
  - simpl. by rewrite <- app_assoc.
Qed.

Lemma quick_success_on_incomplete_path_witness :
  exists s',
    ControlGraphVisitor.generate_test_case Examples.cfg_default
      Examples.quick_solver record_test_case_policy 0
      [Examples.e_start] false Examples.s0 = Some (Return SUCCESS, s')
    /\ path_solver s'
       = [PathSolver.add_path_constraints [Examples.e_start];
          PathSolver.try_quick_solve [Examples.e_start] false]
    /\ test_case_writer s' = []
    /\ num_test_cases s' = 0%Z
    /\ table_solver s' = [].
Proof.
  apply (quick_success_on_incomplete_path Examples.cfg_default
           Examples.quick_solver record_test_case_policy 0
           [Examples.e_start] Examples.s0); reflexivity.
Defined.

(** C5, as the code has it.  Table-consolidation mode together with a
    per-path cap other than 1 is rejected by an assertion inside
    [generate_test_case]: the path constraints have been submitted and the
    quick solve has been tried by then, and the assertion is reached only when
    the quick solve did not report [SUCCESS].  It fails before the generation
    loop: the solver receives nothing further, no test case is written, the
    global counter is unchanged and nothing is registered with the table
    solver.  When the quick solve reports [SUCCESS] on an incomplete path the
    call returns [SUCCESS] and the combination goes unnoticed. *)
Theorem consolidate_tables_conflict_asserted
    (cfg : Config) (solver : PathSolver.Replies)
    (record_test_case : TestPathResult -> bool -> bool)
    (fuel : nat) (control_path : list Edge) (complete : bool) (s : State) :
  get_do_consolidate_tables cfg = true ->
  get_max_test_cases_per_path cfg ≠ Some 1%Z ->
  let s0 := ControlGraphVisitor.constrained control_path complete s in
  path_solver s0
  = path_solver s
    ++ [PathSolver.add_path_constraints control_path;
        PathSolver.try_quick_solve control_path complete]
  /\ test_case_writer s0 = test_case_writer s
  /\ num_test_cases s0 = num_test_cases s
  /\ table_solver s0 = table_solver s
  /\ (PathSolver.quick_solved solver (path_solver s0) ≠ SUCCESS ->
      ControlGraphVisitor.generate_test_case cfg solver record_test_case fuel
        control_path complete s = Some (Raise AssertionError, s0))
  /\ (PathSolver.quick_solved solver (path_solver s0) = SUCCESS ->
      complete = false ->
      record_test_case SUCCESS false = false ->
      ControlGraphVisitor.generate_test_case cfg solver record_test_case fuel
        control_path complete s = Some (Return SUCCESS, s0)).
Proof.
  intros Hdo Hcap s0.
  split; [simpl; by rewrite <- app_assoc |].
  split; [done |]. split; [done |]. split; [done |]. split.
  - intros Hquick. unfold ControlGraphVisitor.generate_test_case. fold s0.
    rewrite bool_decide_eq_false_2 by done. rewrite Hdo.
    destruct (get_max_test_cases_per_path cfg) as [c|]; [| done].
    unfold int_eq. destruct (Z.eqb_spec 1 c) as [<-|Hne]; done.
  - intros Hquick -> Hrec. unfold ControlGraphVisitor.generate_test_case.
    fold s0. rewrite Hquick. simpl. by rewrite Hrec.
Qed.

Lemma consolidate_tables_conflict_asserted_witness :
  ControlGraphVisitor.generate_test_case Examples.cfg_consolidate_cap_2
    Examples.sat_solver record_test_case_policy 5
    [Examples.e_start; Examples.e_accept] true Examples.s0
  = Some (Raise AssertionError,
          ControlGraphVisitor.constrained
            [Examples.e_start; Examples.e_accept] true Examples.s0).
Proof.
  refine (proj1 (proj2 (proj2 (proj2 (proj2
            (consolidate_tables_conflict_asserted
               Examples.cfg_consolidate_cap_2 Examples.sat_solver
               record_test_case_policy 5
               [Examples.e_start; Examples.e_accept] true Examples.s0
               _ _))))) _).
  - reflexivity.
  - simpl. discriminate.
  - vm_compute. discriminate.
Defined.

(** C5 as claimed fails.  With table consolidation enabled and a per-path cap
    of 2, the conflict is only detected inside a [generate_test_case] call:
    when the assertion fails the solver has already been given the path
    constraints; and on a path whose quick solve reports [SUCCESS] the same
    configuration is explored without being rejected at all. *)
Lemma consolidate_tables_conflict_not_eager :
  get_do_consolidate_tables Examples.cfg_consolidate_cap_2 = true
  /\ get_max_test_cases_per_path Examples.cfg_consolidate_cap_2 = Some 2%Z
  /\ (exists s',
        ControlGraphVisitor.generate_test_case Examples.cfg_consolidate_cap_2
          Examples.sat_solver record_test_case_policy 5
          [Examples.e_start; Examples.e_accept] true Examples.s0
        = Some (Raise AssertionError, s')
        /\ path_solver s'
           = [PathSolver.add_path_constraints
                [Examples.e_start; Examples.e_accept];
              PathSolver.try_quick_solve
                [Examples.e_start; Examples.e_accept] true])
  /\ (exists s',
        visit Examples.cfg_consolidate_cap_2 Examples.quick_solver
          record_test_case_policy [] Examples.graph PathCoverage 5
          [Examples.e_start] false Examples.s0
        = Some (Return CONTINUE, s')).
Proof.
  split; [reflexivity |]. split; [reflexivity |]. split.
  - eexists. split; reflexivity.
  - eexists. vm_compute. reflexivity.
Qed.

(** C9, as the code has it.  When incremental solving is not configured, a
    call of [generate_test_case] that returns after its generation loop has
    reset the solver as the last thing it did with it.  The early return,
    taken when the quick solve reports [SUCCESS], leaves the solver as the
    quick solve left it: no reset is issued. *)
Theorem generate_test_case_reset
    (cfg : Config) (solver : PathSolver.Replies)
    (record_test_case : TestPathResult -> bool -> bool)
    (fuel : nat) (control_path : list Edge) (complete : bool)
    (s : State) (result : TestPathResult) (s' : State) :
  get_incremental cfg = false ->
  ControlGraphVisitor.generate_test_case cfg solver record_test_case fuel
    control_path complete s = Some (Return result, s') ->
  let s0 := ControlGraphVisitor.constrained control_path complete s in
  (PathSolver.quick_solved solver (path_solver s0) ≠ SUCCESS ->
     exists calls,
       path_solver s' = path_solver s ++ calls ++ [PathSolver.reset])
  /\ (PathSolver.quick_solved solver (path_solver s0) = SUCCESS ->
      result = SUCCESS
      /\ path_solver s'
         = path_solver s
           ++ [PathSolver.add_path_constraints control_path;
               PathSolver.try_quick_solve control_path complete]).
Proof.
  intros Hinc Hgen s0. unfold ControlGraphVisitor.generate_test_case in Hgen.
  fold s0 in Hgen. split; intros Hquick.
  - rewrite bool_decide_eq_false_2 in Hgen by done.
    destruct (_ && _); [done |].
    destruct (ControlGraphVisitor.while_true _ _ _ _ _ _ _ _)
      as [[results s1]|] eqn:Hloop; [| done].
    apply while_true_spec in Hloop as [[more ->] [(calls & Hcalls & _) _]].
    simpl in Hgen. rewrite Hinc in Hgen. simpl in Hgen.
    injection Hgen as _ <-. simpl. rewrite Hcalls. simpl.
    exists ([PathSolver.add_path_constraints control_path;
             PathSolver.try_quick_solve control_path complete] ++ calls).
    by rewrite <- !app_assoc.
  - rewrite Hquick in Hgen. simpl in Hgen.
    destruct (_ || _); [done |]. injection Hgen as <- <-.
    split; [done |]. simpl. by rewrite <- app_assoc.
Qed.

Lemma generate_test_case_reset_witness :
  exists s',
    ControlGraphVisitor.generate_test_case Examples.cfg_three_per_path
      Examples.varying_solver record_test_case_policy 5
      [Examples.e_start; Examples.e_accept] true Examples.s0
    = Some (Return SUCCESS, s')
    /\ exists calls, path_solver s' = [] ++ calls ++ [PathSolver.reset].
Proof.
  eexists. split; [vm_compute; reflexivity |].
  refine (proj1 (generate_test_case_reset Examples.cfg_three_per_path
            Examples.varying_solver record_test_case_policy 5
            [Examples.e_start; Examples.e_accept] true Examples.s0
            SUCCESS _ eq_refl _) _).
  - vm_compute. reflexivity.
  - vm_compute. discriminate.
Defined.

(** C9 as claimed fails on the early return: incremental solving is not
    configured, the quick solve reports [SUCCESS] on an incomplete path, and
    the call returns with a solver that has received the path constraints and
    the quick solve but no reset. *)
Lemma early_return_does_not_reset :
  get_incremental Examples.cfg_default = false
  /\ exists s',
       ControlGraphVisitor.generate_test_case Examples.cfg_default
         Examples.quick_solver record_test_case_policy 5
         [Examples.e_start] false Examples.s0 = Some (Return SUCCESS, s')
       /\ path_solver s'
          = [PathSolver.add_path_constraints [Examples.e_start];
             PathSolver.try_quick_solve [Examples.e_start] false]
       /\ PathSolver.reset ∉ path_solver s'.
Proof.
  split; [reflexivity |]. eexists. split; [reflexivity |].
  split; [reflexivity |]. simpl.
  rewrite !elem_of_cons, elem_of_nil. by intros [|[|]].
Qed.

(** ** Checkpoints pushed by visit and popped by backtrack *)

Section Checkpoints.

Variable cfg : Config.
Variable solver : PathSolver.Replies.
Variable record_test_case : TestPathResult -> bool -> bool.
Variable parser_path : list Edge.
Variable get_neighbors : string -> list Edge.

Lemma generate_test_case_extends fuel control_path complete s out s' :
  ControlGraphVisitor.generate_test_case cfg solver record_test_case fuel
    control_path complete s = Some (out, s') ->
  extends_neutrally s s'.
Proof.
  assert (Hc : extends_neutrally s
                 (ControlGraphVisitor.constrained control_path complete s)).
  { eapply extends_neutrally_trans; by apply extends_neutrally_call. }
  unfold ControlGraphVisitor.generate_test_case.
  destruct (bool_decide _).
  { destruct (_ || _); by intros [= <- <-]. }
  destruct (_ && _); [by intros [= <- <-] |].
  destruct (ControlGraphVisitor.while_true _ _ _ _ _ _ _ _)
    as [[results s1]|] eqn:Hloop; [| done].
  apply while_true_spec in Hloop as [_ Hext].
  pose proof (extends_neutrally_trans _ _ _ Hc Hext) as Hs1.
  destruct results as [|result results]; [by intros [= <- <-] |].
  destruct (negb _); intros [= <- <-]; [| done].
  eapply extends_neutrally_trans; [exact Hs1 |].
  by apply extends_neutrally_call.
Qed.

Lemma cover_edges_frame (edges : list Edge) (s : State) :
  path_solver (foldl cover_edge s edges) = path_solver s
  /\ done_edges (foldl cover_edge s edges) = done_edges s
  /\ edge_visits (foldl cover_edge s edges) = edge_visits s.
Proof.
  revert s. induction edges as [|e edges IH]; intros s; simpl; [done |].
  destruct (IH (cover_edge s e)) as (-> & -> & ->). done.
Qed.

Lemma record_stats_frame control_path complete result s :
  let s' := ControlGraphVisitor.record_stats cfg parser_path control_path
              complete result s in
  path_solver s' = path_solver s
  /\ done_edges s' = done_edges s
  /\ edge_visits s' = edge_visits s.
Proof.
  unfold ControlGraphVisitor.record_stats.
  pose proof (cover_edges_frame control_path
                (record_full_path_len
                   (length (parser_path ++ control_path)) s))
    as (Hp & Hd & Hv).
  repeat match goal with
         | |- context [if ?b then _ else _] => destruct b
         end; simpl; rewrite ?Hp, ?Hd, ?Hv; done.
Qed.

(** What [visit] does with the solver: one [push], then calls that leave
    the checkpoint stack as they found it. *)
Lemma visit_pushes_once strategy fuel control_path complete s out s' :
  visit cfg solver record_test_case parser_path get_neighbors strategy fuel
    control_path complete s = Some (out, s') ->
  exists inner,
    path_solver s' = path_solver s ++ PathSolver.push :: inner
    /\ neutral inner.
Proof.
  assert (Hgen : forall out1 s1,
             ControlGraphVisitor.generate_test_case cfg solver
               record_test_case fuel control_path complete
               (call PathSolver.push s) = Some (out1, s1) ->
             exists inner,
               path_solver s1 = path_solver s ++ PathSolver.push :: inner
               /\ neutral inner).
  { intros out1 s1 Hg.
    apply generate_test_case_extends in Hg as [(calls & Hcalls & Hn) _].
    exists calls. split; [| done].
    rewrite Hcalls. simpl. by rewrite <- app_assoc. }
  assert (Hskip : exists inner,
             path_solver (call PathSolver.push s)
             = path_solver s ++ PathSolver.push :: inner /\ neutral inner).
  { exists []. split; [done | apply neutral_nil]. }
  destruct strategy; simpl.
  - unfold PathCoverageGraphVisitor.visit.
    destruct (ControlGraphVisitor.generate_test_case _ _ _ _ _ _ _)
      as [[[result|e] s1]|] eqn:Hg; [| | done]; intros [= <- <-].
    + destruct (record_stats_frame control_path complete result s1)
        as (-> & _). by eapply Hgen.
    + by eapply Hgen.
  - unfold EdgeCoverageGraphVisitor.visit.
    destruct (last_item control_path) as [final_edge|];
      [| by intros [= <- <-]].
    destruct (_ && _); [by intros [= <- <-] |].
    destruct (ControlGraphVisitor.generate_test_case _ _ _ _ _ _ _)
      as [[[result|e] s1]|] eqn:Hg; [| by intros [= <- <-]; eapply Hgen | done].
    destruct (record_stats_frame control_path complete result s1)
      as (Hp & _).
    destruct (_ && _); [destruct (negb _) |]; intros [= <- <-]; simpl;
      rewrite ?Hp; by eapply Hgen.
Qed.

Lemma backtrack_pops_once strategy s :
  path_solver (backtrack strategy s) = path_solver s ++ [PathSolver.pop].
Proof. by destruct strategy. Qed.


End Checkpoints.



(** ** done_edges *)

Section DoneEdges.

Variable get_neighbors : string -> list Edge.

Lemma mark_step_grows (done : gset Edge) (x : Edge) :
  done ⊆ EdgeCoverageGraphVisitor.mark_step get_neighbors done x.
Proof.
  unfold EdgeCoverageGraphVisitor.mark_step.
  destruct (forallb _ _); [apply union_subseteq_r | done].
Qed.

(** The backward walk only adds edges, and each edge it adds was found, at
    the moment it was looked at, with every outgoing edge of its destination
    already in the set. *)
Lemma mark_done_spec (edges : list Edge) (done : gset Edge) :
  done ⊆ EdgeCoverageGraphVisitor.mark_done get_neighbors edges done
  /\ forall e,
       e ∈ EdgeCoverageGraphVisitor.mark_done get_neighbors edges done ->
       e ∉ done ->
       e ∈ edges
       /\ exists before : gset Edge,
            done ⊆ before
            /\ (before
                ⊆ EdgeCoverageGraphVisitor.mark_done get_neighbors edges done)
            /\ (e ∉ before)
            /\ forall ce, ce ∈ get_neighbors (dst e) -> ce ∈ before.
Proof.
  unfold EdgeCoverageGraphVisitor.mark_done.
  revert done. induction edges as [|x edges IH]; intros done; simpl.
  - split; [done |]. intros e He Hne. done.
  - destruct (IH (EdgeCoverageGraphVisitor.mark_step get_neighbors done x))
      as [Hsub Hnew].
    pose proof (mark_step_grows done x) as Hstep.
    split; [by etrans |].
    intros e He Hne.
    destruct (decide
                (e ∈ EdgeCoverageGraphVisitor.mark_step get_neighbors done x))
      as [Hin|Hnin].
    + unfold EdgeCoverageGraphVisitor.mark_step in Hin.
      destruct (forallb _ _) eqn:Hall; [| done].
      apply elem_of_union in Hin as [Hin%elem_of_singleton|Hin]; [| done].
      subst e. split; [apply list_elem_of_here |].
      exists done. split; [done |].
      split; [by etrans |].
      split; [done |].
      intros ce Hce. rewrite forallb_forall in Hall.
      apply list_elem_of_In, Hall, bool_decide_eq_true in Hce. done.
    + destruct (Hnew e He Hnin) as [Hedges (before & Hb1 & Hb2 & Hb3 & Hb4)].
      split; [by apply list_elem_of_further |].
      exists before. split; [by etrans |]. done.
Qed.

End DoneEdges.

(** C3.  [done_edges] only grows: [visit] returns with a superset of the set
    it was called with and [backtrack] leaves the set alone
    ([preprocess_edges] only reads it).  An edge that a [visit] adds is added
    in a call on a complete control path whose [generate_test_case] returned
    [SUCCESS] and for which [record_test_case] holds; it is either the final
    edge of the path, or an edge of the path before the final one for which,
    when the backward walk looked at it, every outgoing edge of its
    destination was already in [done_edges]. *)
Theorem done_edges_monotonic
    (cfg : Config) (solver : PathSolver.Replies)
    (record_test_case : TestPathResult -> bool -> bool)
    (parser_path : list Edge) (get_neighbors : string -> list Edge)
    (fuel : nat) (control_path : list Edge) (complete : bool)
    (s : State) (out : Outcome VisitResult) (s' : State) :
  EdgeCoverageGraphVisitor.visit cfg solver record_test_case parser_path
    get_neighbors fuel control_path complete s = Some (out, s') ->
  done_edges s ⊆ done_edges s'
  /\ done_edges (EdgeCoverageGraphVisitor.backtrack s') = done_edges s'
  /\ forall e,
       e ∈ done_edges s' -> e ∉ done_edges s ->
       complete = true
       /\ record_test_case SUCCESS complete = true
       /\ (exists s1,
             ControlGraphVisitor.generate_test_case cfg solver
               record_test_case fuel control_path complete
               (call PathSolver.push s) = Some (Return SUCCESS, s1))
       /\ (last_item control_path = Some e
           \/ (e ∈ removelast control_path
               /\ exists before : gset Edge,
                    done_edges s ⊆ before
                    /\ before ⊆ done_edges s'
                    /\ (e ∉ before)
                    /\ forall ce,
                         ce ∈ get_neighbors (dst e) -> ce ∈ before)).
Proof.
  assert (Hsame : forall s2 : State,
             done_edges s2 = done_edges s ->
             done_edges s ⊆ done_edges s2
             /\ done_edges (EdgeCoverageGraphVisitor.backtrack s2)
                = done_edges s2
             /\ forall e,
                  e ∈ done_edges s2 -> e ∉ done_edges s ->
                  complete = true
                  /\ record_test_case SUCCESS complete = true
                  /\ (exists s1,
                        ControlGraphVisitor.generate_test_case cfg solver
                          record_test_case fuel control_path complete
                          (call PathSolver.push s) = Some (Return SUCCESS, s1))
                  /\ (last_item control_path = Some e
                      \/ (e ∈ removelast control_path
                          /\ exists before : gset Edge,
                               done_edges s ⊆ before
                               /\ before ⊆ done_edges s2
                               /\ (e ∉ before)
                               /\ forall ce,
                                    ce ∈ get_neighbors (dst e) ->
                                    ce ∈ before))).
  { intros s2 Heq. rewrite Heq. split; [done |]. split; [done |].
    by intros e He Hne. }
  unfold EdgeCoverageGraphVisitor.visit.
  destruct (last_item control_path) as [final_edge|] eqn:Hlast;
    [| intros [= <- <-]; by apply Hsame].
  destruct (_ && _); [intros [= <- <-]; by apply Hsame |].
  destruct (ControlGraphVisitor.generate_test_case _ _ _ _ _ _ _)
    as [[[result|exn] s1]|] eqn:Hg; [| | done].
  2:{ apply generate_test_case_extends in Hg as (_ & Hd & _).
      intros [= <- <-]. by apply Hsame. }
  pose proof Hg as Hext. apply generate_test_case_extends in Hext.
  destruct Hext as (_ & Hd & _). simpl in Hd.
  destruct (record_stats_frame cfg parser_path control_path complete
              result s1) as (_ & Hd2 & _).
  assert (Hs2 : done_edges
                  (ControlGraphVisitor.record_stats cfg parser_path
                     control_path complete result s1) = done_edges s)
    by congruence.
  clear Hd2.
  remember (ControlGraphVisitor.record_stats cfg parser_path control_path
              complete result s1) as s2 eqn:Heqs2.
  clear Heqs2.
  destruct (record_test_case result complete) eqn:Hrec;
    [| intros [= <- <-]; by apply Hsame].
  destruct (bool_decide_reflect (result = SUCCESS)) as [->|Hres];
    [| intros [= <- <-]; by apply Hsame].
  destruct complete; [| intros [= <- <-]; by apply Hsame].
  intros [= <- <-]. cbn [done_edges set_done_edges set_edge_visits andb negb].
  rewrite Hs2.
  destruct (mark_done_spec get_neighbors (rev (removelast control_path))
              ({[final_edge]} ∪ done_edges s)) as [Hsub Hnew].
  split.
  { transitivity ({[final_edge]} ∪ done_edges s);
      [apply union_subseteq_r | done]. }
  split; [done |].
  intros e He Hne. split; [done |]. split; [done |].
  split; [by exists s1 |].
  destruct (decide (e = final_edge)) as [->|Hfin]; [by left |].
  right. destruct (Hnew e He) as [Hin (before & Hb1 & Hb2 & Hb3 & Hb4)].
  { intros [Hx%elem_of_singleton|Hx]%elem_of_union; done. }
  split; [by apply list_elem_of_In, in_rev, list_elem_of_In in Hin |].
  exists before. split; [| done].
  transitivity ({[final_edge]} ∪ done_edges s);
    [apply union_subseteq_r | done].
Qed.

Lemma done_edges_monotonic_witness :
  (exists out s',
      EdgeCoverageGraphVisitor.visit Examples.cfg_default Examples.sat_solver
        record_test_case_policy [] Examples.graph 5
        [Examples.e_start; Examples.e_drop] true Examples.after_first_path
      = Some (out, s')
      /\ done_edges Examples.after_first_path ⊆ done_edges s')
  /\ elements (done_edges Examples.after_first_path) = [Examples.e_accept]
  /\ (fun r => bool_decide (Examples.e_start ∈ done_edges r.2)
               && bool_decide (Examples.e_drop ∈ done_edges r.2)
               && bool_decide (Examples.e_accept ∈ done_edges r.2))
     <$> EdgeCoverageGraphVisitor.visit Examples.cfg_default
           Examples.sat_solver record_test_case_policy [] Examples.graph 5
           [Examples.e_start; Examples.e_drop] true Examples.after_first_path
     = Some true.
Proof.
  split; [| split; vm_compute; reflexivity].
  destruct (EdgeCoverageGraphVisitor.visit Examples.cfg_default
              Examples.sat_solver record_test_case_policy [] Examples.graph 5
              [Examples.e_start; Examples.e_drop] true
              Examples.after_first_path) as [[out s']|] eqn:Hvisit.
  - exists out, s'. split; [reflexivity |].
    exact (proj1 (done_edges_monotonic Examples.cfg_default
                    Examples.sat_solver record_test_case_policy []
                    Examples.graph 5 [Examples.e_start; Examples.e_drop] true
                    Examples.after_first_path out s' Hvisit)).
  - exfalso.
    assert (Hsome : bool_decide (is_Some
              (EdgeCoverageGraphVisitor.visit Examples.cfg_default
                 Examples.sat_solver record_test_case_policy []
                 Examples.graph 5 [Examples.e_start; Examples.e_drop] true
                 Examples.after_first_path)) = true)
      by (vm_compute; reflexivity).
    rewrite Hvisit in Hsome. apply bool_decide_eq_true in Hsome.
    by destruct Hsome.
Defined.


(** * Further properties of the strategies *)

(** ** ParserGraphVisitor *)

Lemma extraction_count_app (hlir : ParserGraphVisitor.Hlir)
    (path_prefix more : list Edge) (stack : string) :
  path_prefix ≠ [] ->
  ParserGraphVisitor.extraction_count hlir (path_prefix ++ more) stack
  = ParserGraphVisitor.extraction_count hlir path_prefix stack
    + ParserGraphVisitor.occurrences stack
        (concat (map (ParserGraphVisitor.node_extracts hlir) (map dst more))).
Proof.
  intros Hne. destruct path_prefix as [|e0 rest]; [done |].
  unfold ParserGraphVisitor.extraction_count, ParserGraphVisitor.path_nodes.
  change ((e0 :: rest) ++ more) with (e0 :: (rest ++ more)).
  rewrite !map_cons, !map_app, !concat_cons, concat_app.
  rewrite !occurrences_app. lia.
Qed.

(** X1.  [preprocess_edges] of the parser strategy only ever drops edges: what
    it returns is a sublist of the onward edges, every parser error transition
    among them is kept, and for an empty path prefix nothing is dropped. *)
Theorem parser_preprocess_edges_only_drops
    (hlir : ParserGraphVisitor.Hlir) (path_prefix onward_edges : list Edge) :
  ParserGraphVisitor.preprocess_edges hlir path_prefix onward_edges
    `sublist_of` onward_edges
  /\ filter (fun e => is_ParserErrorTransition e = true)
       (ParserGraphVisitor.preprocess_edges hlir path_prefix onward_edges)
     = filter (fun e => is_ParserErrorTransition e = true) onward_edges
  /\ ParserGraphVisitor.preprocess_edges hlir [] onward_edges = onward_edges.
Proof.
  unfold ParserGraphVisitor.preprocess_edges. split; [| split].
  - destruct (ParserGraphVisitor.overflows hlir _);
      [apply sublist_filter | done].
  - destruct (ParserGraphVisitor.overflows hlir _); [| done].
    by rewrite list_filter_filter_l.
  - reflexivity.
Qed.

(** X2.  Once a path prefix has extracted a header stack beyond its size, so
    has every path that continues it: for each extension of the prefix
    [preprocess_edges] returns the parser error transitions only. *)
Theorem parser_overflow_persists
    (hlir : ParserGraphVisitor.Hlir) (path_prefix more onward_edges : list Edge) :
  ParserGraphVisitor.overflows hlir
    (ParserGraphVisitor.stack_counts_of hlir path_prefix) = true ->
  ParserGraphVisitor.overflows hlir
    (ParserGraphVisitor.stack_counts_of hlir (path_prefix ++ more)) = true
  /\ ParserGraphVisitor.preprocess_edges hlir (path_prefix ++ more) onward_edges
     = filter (fun e => is_ParserErrorTransition e = true) onward_edges.
Proof.
  intros Hover.
  assert (Hmore : ParserGraphVisitor.overflows hlir
            (ParserGraphVisitor.stack_counts_of hlir (path_prefix ++ more))
          = true).
  { destruct path_prefix as [|e0 rest]; [done |].
    apply overflows_true in Hover as [stack Hlt].
    apply overflows_true. exists stack.
    rewrite extraction_count_app by done. lia. }
  split; [done |].
  unfold ParserGraphVisitor.preprocess_edges. by rewrite Hmore.
Qed.

Lemma parser_overflow_persists_witness :
  ParserGraphVisitor.preprocess_edges Examples.hlir
    (Examples.three_extracts ++ [Examples.p_edge "parse_vlan2" "parse_ip"])
    [Examples.p_edge "parse_ip" "sink"; Examples.p_error "parse_ip"]
  = [Examples.p_error "parse_ip"].
Proof.
  apply (parser_overflow_persists Examples.hlir Examples.three_extracts
           [Examples.p_edge "parse_vlan2" "parse_ip"]
           [Examples.p_edge "parse_ip" "sink"; Examples.p_error "parse_ip"]).
  reflexivity.
Defined.

(** X3.  The parser strategy never prunes in [visit] and collects exactly the
    complete paths: every [visit] answers [CONTINUE], and after a sequence of
    visits [all_paths] is what it was, followed by the visited paths that were
    complete, in the order they were visited; [backtrack] changes nothing. *)
Theorem parser_visit_collects_complete_paths
    (visits : list (list Edge * bool)) (all_paths : list (list Edge)) :
  visit_all visits all_paths
  = all_paths ++ (filter (fun v => v.2 = true) visits).*1
  /\ (forall path is_complete_path,
        (ParserGraphVisitor.visit all_paths path is_complete_path).1 = CONTINUE)
  /\ ParserGraphVisitor.backtrack all_paths = all_paths.
Proof.
  split; [| done].
  unfold visit_all. revert all_paths.
  induction visits as [|[path complete] visits IH]; intros all_paths; simpl.
  - by rewrite app_nil_r.
  - rewrite IH, filter_cons. destruct complete; simpl.
    + by rewrite <- app_assoc.
    + done.
Qed.

(** ** The generation loop, pass by pass *)

Section LoopRule.

Import ControlGraphVisitor.
Variable cfg : Config.
Variable solver : PathSolver.Replies.
Variable record_test_case : TestPathResult -> bool -> bool.

(** What holds on entry and is kept by every pass that goes round again holds
    when the loop is left, in the form the leaving pass gives it. *)
Lemma while_true_rule (I Q : list TestPathResult -> State -> Prop)
    control_path complete :
  (forall results s,
      I results s ->
      match loop_body cfg solver record_test_case control_path complete
              results s with
      | (Again, results', s') => I results' s'
      | (Break, results', s') => Q results' s'
      end) ->
  forall fuel results s results' s',
    while_true cfg solver record_test_case fuel control_path complete
      results s = Some (results', s') ->
    I results s -> Q results' s'.
Proof.
  intros Hbody fuel. induction fuel as [|fuel IH];
    intros results s results' s' Hloop HI; simpl in Hloop; [done |].
  specialize (Hbody results s HI).
  destruct (loop_body cfg solver record_test_case control_path complete
              results s) as [[[|] results1] s1].
  - by simplify_eq.
  - by eapply IH.
Qed.

(** The state after the solving part of a pass differs from the state before
    in the solver's history only. *)
Lemma solve_and_classify_state control_path complete s :
  let s1 := (solve_and_classify solver control_path complete s).2 in
  table_solver s1 = table_solver s
  /\ test_case_writer s1 = test_case_writer s
  /\ num_test_cases s1 = num_test_cases s
  /\ same_records s s1
  /\ resets (path_solver s1) = resets (path_solver s).
Proof.
  unfold solve_and_classify, same_records, resets.
  destruct complete;
    destruct (PathSolver.generated solver _) as [result test_case]; simpl;
    rewrite !filter_app, !length_app; simpl; repeat split; lia.
Qed.

(** The cases of one pass: what it appends, whether it leaves, and the state
    it produces from the state [s1] after the solving part. *)
Lemma loop_body_cases control_path complete results s :
  let result := (solve_and_classify solver control_path complete s).1.1 in
  let test_case := (solve_and_classify solver control_path complete s).1.2 in
  let s1 := (solve_and_classify solver control_path complete s).2 in
  let results' := results ++ [result] in
  let s2 := write test_case s1 in
  let s3 := call (PathSolver.constrain_last_extract_vl_lengths
                    (get_extract_vl_variation cfg)) s2 in
  let body := loop_body cfg solver record_test_case control_path complete
                results s in
  (record_test_case result complete = false /\ body = (Break, results', s1))
  \/ (record_test_case result complete = true
      /\ get_do_consolidate_tables cfg = true
      /\ body = (Break, results', add_path (control_path, complete) s1))
  \/ (record_test_case result complete = true
      /\ get_do_consolidate_tables cfg = false
      /\ (int_eq (num_test_cases s2) (get_num_test_cases cfg) = true
          \/ int_eq (Z.of_nat (length results'))
               (get_max_test_cases_per_path cfg) = true
          \/ result = NO_PACKET_FOUND)
      /\ body = (Break, results', s2))
  \/ (record_test_case result complete = true
      /\ get_do_consolidate_tables cfg = false
      /\ int_eq (num_test_cases s2) (get_num_test_cases cfg) = false
      /\ int_eq (Z.of_nat (length results'))
           (get_max_test_cases_per_path cfg) = false
      /\ result ≠ NO_PACKET_FOUND
      /\ ((PathSolver.vl_constrained solver (path_solver s3) = false
           /\ int_eq 0 (get_max_test_cases_per_path cfg) = true
           /\ body = (Break, results', s3))
          \/ body = (Again, results', s3))).
Proof.
  intros result test_case s1 results' s2 s3 body.
  subst body result test_case s1 results' s2 s3. unfold loop_body.
  destruct (solve_and_classify solver control_path complete s)
    as [[result test_case] s1]. cbn [fst snd].
  destruct (record_test_case result complete); simpl; [| by left].
  right. destruct (get_do_consolidate_tables cfg); [by left |].
  right. destruct (int_eq (num_test_cases s1 + 1) _) eqn:Hglobal; simpl.
  { left. split; [done |]. split; [done |]. split; [by left | done]. }
  destruct (int_eq (Z.of_nat (length (results ++ [result]))) _) eqn:Hpath;
    simpl.
  { left. split; [done |]. split; [done |]. split; [by right; left | done]. }
  destruct (bool_decide_reflect (result = NO_PACKET_FOUND)) as [->|Hres].
  { left. split; [done |]. split; [done |]. split; [by right; right | done]. }
  right. repeat (split; [done |]).
  destruct (PathSolver.vl_constrained solver _); simpl; [by right |].
  destruct (int_eq 0 _); [left; by eauto | by right].
Qed.

End LoopRule.

Section LoopEffects.

Import ControlGraphVisitor.
Variable cfg : Config.
Variable solver : PathSolver.Replies.
Variable record_test_case : TestPathResult -> bool -> bool.

Lemma loop_effects_refl left registration results s :
  loop_effects (get_do_consolidate_tables cfg) left registration
    results s results s.
Proof.
  split; [by repeat split |]. split; [done |]. split; [done |].
  exists [], []. rewrite !app_nil_r. repeat split; try done;
    [simpl; lia | simpl; lia | by left].
Qed.

Lemma loop_body_effects control_path complete results0 s0 results s :
  loop_effects (get_do_consolidate_tables cfg) false (control_path, complete)
    results0 s0 results s ->
  match loop_body cfg solver record_test_case control_path complete
          results s with
  | (Again, results', s') =>
      loop_effects (get_do_consolidate_tables cfg) false
        (control_path, complete) results0 s0 results' s'
  | (Break, results', s') =>
      loop_effects (get_do_consolidate_tables cfg) true
        (control_path, complete) results0 s0 results' s'
  end.
Proof.
  intros (Hrec & Hres & Hlen & written & registered
          & Hw & Hn & Hlw & Ht & Hc & Hreg).
  assert (registered = []) as -> by (by destruct Hreg as [|(_ & _ & ?)]).
  rewrite app_nil_r in Ht.
  destruct (solve_and_classify_state solver control_path complete s)
    as (Ht1 & Hw1 & Hn1 & Hrec1 & Hres1).
  assert (Hrec01 : same_records s0
            (solve_and_classify solver control_path complete s).2).
  { unfold same_records in *.
    destruct Hrec as (?&?&?&?&?&?&?&?&?&?&?).
    destruct Hrec1 as (?&?&?&?&?&?&?&?&?&?&?).
    repeat split; congruence. }
  pose proof (loop_body_cases cfg solver record_test_case control_path
                complete results s) as Hcases.
  cbv zeta in Hcases.
  set (s1 := (solve_and_classify solver control_path complete s).2) in *.
  set (r1 := (solve_and_classify solver control_path complete s).1.1) in *.
  set (t1 := (solve_and_classify solver control_path complete s).1.2) in *.
  assert (Hlen1 : length (results ++ [r1]) = S (length results))
    by (rewrite length_app; simpl; lia).
  destruct Hcases as [(_ & ->)|[(_ & Hdo & ->)|[(_ & Hdo & _ & ->)|
                      (_ & Hdo & _ & _ & _ & [(_ & _ & ->)| ->])]]].
  - split; [done |]. split; [congruence |]. split; [lia |].
    exists written, []. rewrite app_nil_r.
    repeat split; try done; try congruence; try lia. by left.
  - split; [done |]. split; [simpl; congruence |]. split; [lia |].
    exists written, [(control_path, complete)].
    repeat split; try done; simpl; try congruence; try lia.
    right. by rewrite Hdo.
  - split; [done |]. split; [simpl; congruence |]. split; [lia |].
    exists (written ++ [t1]), []. rewrite app_nil_r.
    repeat split; simpl;
      first [ congruence
            | by rewrite Hw1, Hw, <- app_assoc
            | rewrite ?Hn1, ?Hn, ?length_app; simpl; lia
            | by left ].
  - split; [done |]. split.
    { simpl. unfold resets in *. rewrite filter_app, length_app. simpl.
      rewrite <- Hres, <- Hres1. lia. }
    split; [lia |].
    exists (written ++ [t1]), []. rewrite app_nil_r.
    repeat split; simpl;
      first [ congruence
            | by rewrite Hw1, Hw, <- app_assoc
            | rewrite ?Hn1, ?Hn, ?length_app; simpl; lia
            | by left ].
  - split; [done |]. split.
    { simpl. unfold resets in *. rewrite filter_app, length_app. simpl.
      rewrite <- Hres, <- Hres1. lia. }
    split; [lia |].
    exists (written ++ [t1]), []. rewrite app_nil_r.
    repeat split; simpl;
      first [ congruence
            | by rewrite Hw1, Hw, <- app_assoc
            | rewrite ?Hn1, ?Hn, ?length_app; simpl; lia
            | by left ].
Qed.

Lemma while_true_effects fuel control_path complete results s results' s' :
  while_true cfg solver record_test_case fuel control_path complete
    results s = Some (results', s') ->
  loop_effects (get_do_consolidate_tables cfg) true (control_path, complete)
    results s results' s'.
Proof.
  intros Hloop.
  eapply (while_true_rule cfg solver record_test_case
            (loop_effects (get_do_consolidate_tables cfg) false
               (control_path, complete) results s)
            (loop_effects (get_do_consolidate_tables cfg) true
               (control_path, complete) results s));
    [| exact Hloop | apply loop_effects_refl].
  intros results1 s1. apply loop_body_effects.
Qed.

End LoopEffects.

Section GenerateEffects.

Import ControlGraphVisitor.
Variable cfg : Config.
Variable solver : PathSolver.Replies.
Variable record_test_case : TestPathResult -> bool -> bool.

Lemma constrained_state control_path complete s :
  let s0 := constrained control_path complete s in
  table_solver s0 = table_solver s
  /\ test_case_writer s0 = test_case_writer s
  /\ num_test_cases s0 = num_test_cases s
  /\ same_records s s0
  /\ resets (path_solver s0) = resets (path_solver s).
Proof.
  unfold constrained, same_records, resets. simpl.
  rewrite !filter_app, !length_app. simpl. repeat split; lia.
Qed.

(** The ways [generate_test_case] comes back, with the state it leaves. *)
Lemma generate_test_case_cases fuel control_path complete s out s' :
  generate_test_case cfg solver record_test_case fuel control_path complete s
  = Some (out, s') ->
  let s0 := constrained control_path complete s in
  (s' = s0
   /\ (out = Raise AssertionError
       \/ (out = Return SUCCESS
           /\ PathSolver.quick_solved solver (path_solver s0) = SUCCESS)))
  \/ (PathSolver.quick_solved solver (path_solver s0) ≠ SUCCESS
      /\ exists results s1,
           while_true cfg solver record_test_case fuel control_path complete
             [] s0 = Some (results, s1)
           /\ out = Return
                      (solve_and_classify solver control_path complete s0).1.1
           /\ s' = (if negb (get_incremental cfg)
                    then call PathSolver.reset s1 else s1)).
Proof.
  intros Hgen s0. unfold generate_test_case in Hgen. fold s0 in Hgen.
  destruct (bool_decide_reflect
              (PathSolver.quick_solved solver (path_solver s0) = SUCCESS))
    as [Hq|Hq].
  - left. rewrite Hq in Hgen.
    destruct (_ || _); simplify_eq; split; auto.
  - destruct (_ && _); [simplify_eq; left; split; auto |].
    right. split; [done |].
    destruct (while_true _ _ _ _ _ _ _ _) as [[results s1]|] eqn:Hloop;
      [| done].
    exists results, s1. split; [done |].
    apply while_true_spec in Hloop as [[more ->] _].
    simpl in Hgen. by simplify_eq.
Qed.

Lemma generate_test_case_effects fuel control_path complete s out s' :
  generate_test_case cfg solver record_test_case fuel control_path complete s
  = Some (out, s') ->
  same_records s s'
  /\ resets (path_solver s') <= S (resets (path_solver s))
  /\ (get_incremental cfg = true ->
      resets (path_solver s') = resets (path_solver s))
  /\ exists written registered,
       test_case_writer s' = test_case_writer s ++ written
       /\ num_test_cases s' = (num_test_cases s + Z.of_nat (length written))%Z
       /\ table_solver s' = table_solver s ++ registered
       /\ (get_do_consolidate_tables cfg = true -> written = [])
       /\ (registered = []
           \/ (registered = [(control_path, complete)]
               /\ get_do_consolidate_tables cfg = true)).
Proof.
  intros Hgen. apply generate_test_case_cases in Hgen. cbv zeta in Hgen.
  destruct (constrained_state control_path complete s)
    as (Ht0 & Hw0 & Hn0 & Hrec0 & Hres0).
  destruct Hgen as [[-> _]|(_ & results & s1 & Hloop & _ & ->)].
  - split; [done |]. split; [lia |]. split; [done |].
    exists [], []. rewrite !app_nil_r. simpl.
    repeat split; try done; try lia. by left.
  - apply while_true_effects in Hloop
      as (Hrec & Hres & _ & written & registered
          & Hw & Hn & _ & Ht & Hc & Hreg).
    assert (Hrecs : same_records s s1).
    { unfold same_records in *.
      destruct Hrec as (?&?&?&?&?&?&?&?&?&?&?).
      destruct Hrec0 as (?&?&?&?&?&?&?&?&?&?&?).
      repeat split; congruence. }
    assert (Hex : exists written registered,
               test_case_writer s1 = test_case_writer s ++ written
               /\ num_test_cases s1
                  = (num_test_cases s + Z.of_nat (length written))%Z
               /\ table_solver s1 = table_solver s ++ registered
               /\ (get_do_consolidate_tables cfg = true -> written = [])
               /\ (registered = []
                   \/ (registered = [(control_path, complete)]
                       /\ get_do_consolidate_tables cfg = true))).
    { exists written, registered.
      repeat split; try congruence; [exact Hc |].
      destruct Hreg as [|(? & ? & _)]; auto. }
    destruct (get_incremental cfg); simpl.
    + split; [done |]. split; [lia |]. split; [intros _; lia | done].
    + split; [done |]. split; [| split; [done | done]].
      unfold resets in *. rewrite filter_app, length_app. simpl. lia.
Qed.

Lemma while_true_per_path_cap (n fuel : nat) control_path complete
    results s results' s' :
  get_max_test_cases_per_path cfg = Some (Z.of_nat n) ->
  while_true cfg solver record_test_case fuel control_path complete
    results s = Some (results', s') ->
  length results < n -> length results' <= n.
Proof.
  intros Hcap.
  apply (while_true_rule cfg solver record_test_case
           (fun r _ => length r < n) (fun r _ => length r <= n)).
  intros results1 s1 Hlt.
  pose proof (loop_body_cases cfg solver record_test_case control_path
                complete results1 s1) as Hcases.
  cbv zeta in Hcases.
  assert (Hlen : forall r, length (results1 ++ [r]) = S (length results1))
    by (intros r; rewrite length_app; simpl; lia).
  destruct Hcases as [(_ & ->)|[(_ & _ & ->)|[(_ & _ & _ & ->)|
                      (_ & _ & _ & Hne & _ & [(_ & _ & ->)| ->])]]];
    rewrite ?Hlen; try lia.
  rewrite Hcap in Hne. simpl in Hne. apply Z.eqb_neq in Hne.
  rewrite Hlen in Hne. lia.
Qed.

Lemma while_true_global_cap (c : Z) (fuel : nat) control_path complete
    results s results' s' :
  get_num_test_cases cfg = Some c ->
  while_true cfg solver record_test_case fuel control_path complete
    results s = Some (results', s') ->
  (num_test_cases s < c)%Z -> (num_test_cases s' <= c)%Z.
Proof.
  intros Hcap.
  apply (while_true_rule cfg solver record_test_case
           (fun _ s => (num_test_cases s < c)%Z)
           (fun _ s => (num_test_cases s <= c)%Z)).
  intros results1 s1 Hlt.
  pose proof (loop_body_cases cfg solver record_test_case control_path
                complete results1 s1) as Hcases.
  cbv zeta in Hcases.
  destruct (solve_and_classify_state solver control_path complete s1)
    as (_ & _ & Hn1 & _).
  destruct Hcases as [(_ & ->)|[(_ & _ & ->)|[(_ & _ & _ & ->)|
                      (_ & _ & Hne & _ & _ & [(_ & _ & ->)| ->])]]];
    simpl; try lia.
  rewrite Hcap in Hne. simpl in Hne. apply Z.eqb_neq in Hne. lia.
Qed.

End GenerateEffects.

(** ** ControlGraphVisitor.generate_test_case: what one call changes *)

(** X4.  Whatever way a call of [generate_test_case] comes back, the test-case
    writer has only been appended to and the global test-case counter has
    grown by exactly the number of test cases written during the call. *)
Theorem generate_test_case_counts_each_write
    (cfg : Config) (solver : PathSolver.Replies)
    (record_test_case : TestPathResult -> bool -> bool)
    (fuel : nat) (control_path : list Edge) (complete : bool)
    (s : State) (out : Outcome TestPathResult) (s' : State) :
  ControlGraphVisitor.generate_test_case cfg solver record_test_case fuel
    control_path complete s = Some (out, s') ->
  exists written,
    test_case_writer s' = test_case_writer s ++ written
    /\ num_test_cases s' = (num_test_cases s + Z.of_nat (length written))%Z.
Proof.
  intros Hgen.
  apply generate_test_case_effects in Hgen
    as (_ & _ & _ & written & registered & Hw & Hn & _).
  by exists written.
Qed.

Lemma generate_test_case_counts_each_write_witness :
  exists out s',
    ControlGraphVisitor.generate_test_case Examples.cfg_three_per_path
      Examples.varying_solver record_test_case_policy 5
      [Examples.e_start; Examples.e_accept] true Examples.s0
    = Some (out, s')
    /\ test_case_writer s' = [6; 12]
    /\ exists written,
         test_case_writer s' = test_case_writer Examples.s0 ++ written
         /\ num_test_cases s'
            = (num_test_cases Examples.s0 + Z.of_nat (length written))%Z.
Proof.
  eexists _, _. split; [vm_compute; reflexivity |].
  split; [reflexivity |].
  eapply (generate_test_case_counts_each_write Examples.cfg_three_per_path
            Examples.varying_solver record_test_case_policy 5
            [Examples.e_start; Examples.e_accept] true Examples.s0).
  vm_compute. reflexivity.
Defined.

(** X5.  [generate_test_case] never touches what [record_stats] and the edge
    strategy keep: the per-edge statistics, the covered-edge counter, the
    path-length averages, the result map, the success-path counter,
    [done_edges] and [edge_visits] are the same after the call, however it
    comes back. *)
Theorem generate_test_case_keeps_records
    (cfg : Config) (solver : PathSolver.Replies)
    (record_test_case : TestPathResult -> bool -> bool)
    (fuel : nat) (control_path : list Edge) (complete : bool)
    (s : State) (out : Outcome TestPathResult) (s' : State) :
  ControlGraphVisitor.generate_test_case cfg solver record_test_case fuel
    control_path complete s = Some (out, s') ->
  same_records s s'.
Proof.
  intros Hgen. by apply generate_test_case_effects in Hgen as (Hrec & _).
Qed.

Lemma generate_test_case_keeps_records_witness :
  exists out s',
    ControlGraphVisitor.generate_test_case Examples.cfg_three_per_path
      Examples.varying_solver record_test_case_policy 5
      [Examples.e_start; Examples.e_accept] true Examples.s0
    = Some (out, s')
    /\ same_records Examples.s0 s'.
Proof.
  eexists _, _. split; [vm_compute; reflexivity |].
  eapply (generate_test_case_keeps_records Examples.cfg_three_per_path
            Examples.varying_solver record_test_case_policy 5
            [Examples.e_start; Examples.e_accept] true Examples.s0).
  vm_compute. reflexivity.
Defined.

(** X6.  With a per-path cap of [n >= 1], one call of [generate_test_case]
    writes at most [n] test cases. *)
Theorem per_path_cap_bounds_written_test_cases
    (cfg : Config) (solver : PathSolver.Replies)
    (record_test_case : TestPathResult -> bool -> bool)
    (n fuel : nat) (control_path : list Edge) (complete : bool)
    (s : State) (out : Outcome TestPathResult) (s' : State) :
  get_max_test_cases_per_path cfg = Some (Z.of_nat n) ->
  1 <= n ->
  ControlGraphVisitor.generate_test_case cfg solver record_test_case fuel
    control_path complete s = Some (out, s') ->
  length (test_case_writer s') <= length (test_case_writer s) + n.
Proof.
  intros Hcap Hn Hgen. apply generate_test_case_cases in Hgen.
  cbv zeta in Hgen.
  destruct Hgen as [[-> _]|(_ & results & s1 & Hloop & _ & ->)];
    [simpl; lia |].
  pose proof (while_true_per_path_cap cfg solver record_test_case n fuel
                control_path complete [] _ results s1 Hcap Hloop) as Hle.
  apply while_true_effects in Hloop
    as (_ & _ & _ & written & registered & Hw & _ & Hlw & _).
  simpl in Hle, Hlw, Hw.
  assert (length (test_case_writer s1)
          <= length (test_case_writer s) + n)
    by (rewrite Hw, length_app; lia).
  by destruct (get_incremental cfg).
Qed.

Lemma per_path_cap_bounds_written_test_cases_witness :
  exists out s',
    ControlGraphVisitor.generate_test_case Examples.cfg_three_per_path
      Examples.sat_solver record_test_case_policy 5
      [Examples.e_start; Examples.e_accept] true Examples.s0
    = Some (out, s')
    /\ length (test_case_writer s') = 3
    /\ length (test_case_writer s')
       <= length (test_case_writer Examples.s0) + 3.
Proof.
  eexists _, _. split; [vm_compute; reflexivity |].
  split; [reflexivity |].
  eapply (per_path_cap_bounds_written_test_cases Examples.cfg_three_per_path
            Examples.sat_solver record_test_case_policy 3 5
            [Examples.e_start; Examples.e_accept] true Examples.s0);
    [reflexivity | lia | vm_compute; reflexivity].
Defined.

(** X7.  When the global test-case counter is below the global cap at the
    start of a call of [generate_test_case], it does not exceed the cap when
    the call comes back. *)
Theorem global_cap_not_exceeded
    (cfg : Config) (solver : PathSolver.Replies)
    (record_test_case : TestPathResult -> bool -> bool)
    (c : Z) (fuel : nat) (control_path : list Edge) (complete : bool)
    (s : State) (out : Outcome TestPathResult) (s' : State) :
  get_num_test_cases cfg = Some c ->
  (num_test_cases s < c)%Z ->
  ControlGraphVisitor.generate_test_case cfg solver record_test_case fuel
    control_path complete s = Some (out, s') ->
  (num_test_cases s' <= c)%Z.
Proof.
  intros Hcap Hlt Hgen. apply generate_test_case_cases in Hgen.
  cbv zeta in Hgen.
  destruct Hgen as [[-> _]|(_ & results & s1 & Hloop & _ & ->)];
    [simpl; lia |].
  apply (while_true_global_cap cfg solver record_test_case c) in Hloop;
    [| done | simpl; lia].
  by destruct (get_incremental cfg).
Qed.

Lemma global_cap_not_exceeded_witness :
  exists out s',
    ControlGraphVisitor.generate_test_case
      (mkConfig 0 (Some 2%Z) None false None false false)
      Examples.varying_solver (fun _ _ => true) 5
      [Examples.e_start; Examples.e_accept] true Examples.s0
    = Some (out, s')
    /\ num_test_cases s' = 2%Z
    /\ (num_test_cases s' <= 2)%Z.
Proof.
  eexists _, _. split; [vm_compute; reflexivity |].
  split; [reflexivity |].
  eapply (global_cap_not_exceeded
            (mkConfig 0 (Some 2%Z) None false None false false)
            Examples.varying_solver (fun _ _ => true) 2 5
            [Examples.e_start; Examples.e_accept] true Examples.s0);
    [reflexivity | simpl; lia | vm_compute; reflexivity].
Defined.

(** X8.  In table-consolidation mode a call of [generate_test_case] writes no
    test case and leaves the global counter alone; it registers the path with
    the table solver at most once.  Outside that mode nothing is ever
    registered with the table solver. *)
Theorem consolidate_tables_registers_instead_of_writing
    (cfg : Config) (solver : PathSolver.Replies)
    (record_test_case : TestPathResult -> bool -> bool)
    (fuel : nat) (control_path : list Edge) (complete : bool)
    (s : State) (out : Outcome TestPathResult) (s' : State) :
  ControlGraphVisitor.generate_test_case cfg solver record_test_case fuel
    control_path complete s = Some (out, s') ->
  (get_do_consolidate_tables cfg = true ->
     test_case_writer s' = test_case_writer s
     /\ num_test_cases s' = num_test_cases s
     /\ (table_solver s' = table_solver s
         \/ table_solver s' = table_solver s ++ [(control_path, complete)]))
  /\ (get_do_consolidate_tables cfg = false ->
      table_solver s' = table_solver s).
Proof.
  intros Hgen.
  apply generate_test_case_effects in Hgen
    as (_ & _ & _ & written & registered & Hw & Hn & Ht & Hc & Hreg).
  split.
  - intros Hdo. rewrite (Hc Hdo) in Hw, Hn. rewrite app_nil_r in Hw.
    simpl in Hn. split; [done |]. split; [lia |].
    destruct Hreg as [->|[-> _]]; [left; by rewrite Ht, app_nil_r | by right].
  - intros Hdo. destruct Hreg as [->|[_ Hdo']]; [| congruence].
    by rewrite Ht, app_nil_r.
Qed.

Lemma consolidate_tables_registers_instead_of_writing_witness :
  exists out s',
    ControlGraphVisitor.generate_test_case
      (mkConfig 0 None (Some 1%Z) true None false false)
      Examples.sat_solver record_test_case_policy 5
      [Examples.e_start; Examples.e_accept] true Examples.s0
    = Some (out, s')
    /\ out = Return SUCCESS
    /\ table_solver s' = [([Examples.e_start; Examples.e_accept], true)]
    /\ test_case_writer s' = test_case_writer Examples.s0
    /\ num_test_cases s' = num_test_cases Examples.s0.
Proof.
  eexists _, _. split; [vm_compute; reflexivity |].
  split; [reflexivity |]. split; [reflexivity |].
  refine ((fun H => conj (proj1 H) (proj1 (proj2 H)))
            (proj1 (consolidate_tables_registers_instead_of_writing
               (mkConfig 0 None (Some 1%Z) true None false false)
               Examples.sat_solver record_test_case_policy 5
               [Examples.e_start; Examples.e_accept] true Examples.s0
               _ _ _) eq_refl)).
  vm_compute. reflexivity.
Defined.

(** X9.  A call of [generate_test_case] resets the solver at most once, and
    not at all when incremental solving is configured, when the call raises,
    or when it returns early on a successful quick solve. *)
Theorem generate_test_case_resets_at_most_once
    (cfg : Config) (solver : PathSolver.Replies)
    (record_test_case : TestPathResult -> bool -> bool)
    (fuel : nat) (control_path : list Edge) (complete : bool)
    (s : State) (out : Outcome TestPathResult) (s' : State) :
  ControlGraphVisitor.generate_test_case cfg solver record_test_case fuel
    control_path complete s = Some (out, s') ->
  resets (path_solver s') <= S (resets (path_solver s))
  /\ (get_incremental cfg = true ->
      resets (path_solver s') = resets (path_solver s))
  /\ (forall e, out = Raise e ->
      resets (path_solver s') = resets (path_solver s))
  /\ (PathSolver.quick_solved solver
        (path_solver
           (ControlGraphVisitor.constrained control_path complete s))
      = SUCCESS ->
      resets (path_solver s') = resets (path_solver s)).
Proof.
  intros Hgen. pose proof Hgen as Heff.
  apply generate_test_case_effects in Heff as (_ & Hle & Hinc & _).
  split; [done |]. split; [done |].
  apply generate_test_case_cases in Hgen. cbv zeta in Hgen.
  destruct (constrained_state control_path complete s)
    as (_ & _ & _ & _ & Hres0).
  destruct Hgen as [[-> _]|(Hq & results & s1 & _ & -> & _)].
  - split; [by intros e _ | done].
  - split; [by intros e [=] | by intros Hq'].
Qed.

Lemma generate_test_case_resets_at_most_once_witness :
  exists out s',
    ControlGraphVisitor.generate_test_case
      (mkConfig 0 None (Some 3%Z) false None true false)
      Examples.sat_solver record_test_case_policy 5
      [Examples.e_start; Examples.e_accept] true Examples.s0
    = Some (out, s')
    /\ resets (path_solver s') = resets (path_solver Examples.s0).
Proof.
  eexists _, _. split; [vm_compute; reflexivity |].
  refine (proj1 (proj2 (generate_test_case_resets_at_most_once
            (mkConfig 0 None (Some 3%Z) false None true false)
            Examples.sat_solver record_test_case_policy 5
            [Examples.e_start; Examples.e_accept] true Examples.s0
            _ _ _)) eq_refl).
  vm_compute. reflexivity.
Defined.

(** X10.  A quick solve that reports [SUCCESS] on a complete control path
    trips the assertion of the early return: [generate_test_case] raises
    [AssertionError] whatever [record_test_case] says, having given the
    solver the path constraints and the quick solve and nothing else. *)
Theorem quick_success_on_complete_path_asserts
    (cfg : Config) (solver : PathSolver.Replies)
    (record_test_case : TestPathResult -> bool -> bool)
    (fuel : nat) (control_path : list Edge) (s : State) :
  PathSolver.quick_solved solver
    (path_solver (ControlGraphVisitor.constrained control_path true s))
  = SUCCESS ->
  exists s',
    ControlGraphVisitor.generate_test_case cfg solver record_test_case fuel
      control_path true s = Some (Raise AssertionError, s')
    /\ path_solver s'
       = path_solver s
         ++ [PathSolver.add_path_constraints control_path;
             PathSolver.try_quick_solve control_path true]
    /\ test_case_writer s' = test_case_writer s
    /\ table_solver s' = table_solver s.
Proof.
  intros Hquick.
  exists (ControlGraphVisitor.constrained control_path true s). split.
  - unfold ControlGraphVisitor.generate_test_case. by rewrite Hquick.
  - simpl. by rewrite <- app_assoc.
Qed.

Lemma quick_success_on_complete_path_asserts_witness :
  exists s',
    ControlGraphVisitor.generate_test_case Examples.cfg_default
      Examples.quick_solver (fun _ _ => false) 5
      [Examples.e_start; Examples.e_accept] true Examples.s0
    = Some (Raise AssertionError, s')
    /\ path_solver s'
       = path_solver Examples.s0
         ++ [PathSolver.add_path_constraints
               [Examples.e_start; Examples.e_accept];
             PathSolver.try_quick_solve
               [Examples.e_start; Examples.e_accept] true]
    /\ test_case_writer s' = test_case_writer Examples.s0
    /\ table_solver s' = table_solver Examples.s0.
Proof.
  apply (quick_success_on_complete_path_asserts Examples.cfg_default
           Examples.quick_solver (fun _ _ => false) 5
           [Examples.e_start; Examples.e_accept] Examples.s0).
  reflexivity.
Defined.

(** ** ControlGraphVisitor.record_stats *)

Lemma covered_incr (visits : gmap Edge nat) (e : Edge) :
  covered (incr visits e)
  = if getitem visits e =? 0 then S (covered visits) else covered visits.
Proof.
  unfold covered, incr.
  rewrite map_filter_insert_True by (simpl; lia).
  rewrite map_size_insert.
  destruct (filter (fun kv : Edge * nat => 0 < kv.2) visits !! e)
    as [v|] eqn:Hf.
  - apply map_lookup_filter_Some in Hf as [Hv Hpos]. simpl in Hpos.
    rewrite (lookup_getitem _ _ _ Hv).
    destruct (Nat.eqb_spec v 0); [lia | done].
  - destruct (Nat.eqb_spec (getitem visits e) 0) as [|Hne]; [done |].
    assert (visits !! e = Some (getitem visits e)) as Hv
      by (apply getitem_pos_lookup; lia).
    assert (filter (fun kv : Edge * nat => 0 < kv.2) visits !! e
            = Some (getitem visits e)) as Hf'
      by (apply map_lookup_filter_Some; split; [done | simpl; lia]).
    congruence.
Qed.

Lemma cover_edges_stats (edges : list Edge) (s : State) :
  stats_per_control_path_edge (foldl cover_edge s edges)
  = foldl incr (stats_per_control_path_edge s) edges
  /\ (num_covered_edges s = covered (stats_per_control_path_edge s) ->
      num_covered_edges (foldl cover_edge s edges)
      = covered (stats_per_control_path_edge (foldl cover_edge s edges)))
  /\ results (foldl cover_edge s edges) = results s
  /\ success_path_count (foldl cover_edge s edges) = success_path_count s
  /\ stats (foldl cover_edge s edges) = stats s.
Proof.
  revert s. induction edges as [|e edges IH]; intros s; simpl; [done |].
  destruct (IH (cover_edge s e)) as (-> & Hcov & -> & -> & ->).
  split; [done |]. split; [| done].
  intros Hinv. apply Hcov. simpl. rewrite covered_incr, Hinv.
  by destruct (getitem _ e =? 0).
Qed.

(** The fields [record_stats] computes, one by one. *)
Lemma record_stats_fields (cfg : Config) (parser_path control_path : list Edge)
    (complete : bool) (result : TestPathResult) (s : State) :
  let s' := ControlGraphVisitor.record_stats cfg parser_path control_path
              complete result s in
  let full := bool_decide (result = SUCCESS) && complete in
  stats_per_control_path_edge s'
  = (if full then foldl incr (stats_per_control_path_edge s) control_path
     else stats_per_control_path_edge s)
  /\ (num_covered_edges s = covered (stats_per_control_path_edge s) ->
      num_covered_edges s' = covered (stats_per_control_path_edge s'))
  /\ results s'
     = (if record_path_result result complete
        then <[(parser_path, control_path) := result]> (results s)
        else results s)
  /\ success_path_count s'
     = (if full then (success_path_count s + 1)%Z else success_path_count s)
  /\ stats s'
     = (if record_path_result result complete then incr (stats s) result
        else stats s).
Proof.
  intros s' full. subst s' full. unfold ControlGraphVisitor.record_stats.
  destruct (cover_edges_stats control_path
              (record_full_path_len
                 (length (parser_path ++ control_path)) s))
    as (Hst & Hcov & Hr & Hsp & Hs).
  simpl in Hst, Hcov, Hr, Hsp, Hs.
  unfold record_path_result.
  destruct (bool_decide_reflect (result = SUCCESS)) as [->|Hne];
    [| rewrite (bool_decide_eq_true_2 (result ≠ SUCCESS)) by done;
       destruct (bool_decide (result = NO_PACKET_FOUND))];
    destruct complete; destruct (get_record_statistics cfg); simpl;
    rewrite ?Hst, ?Hr, ?Hsp, ?Hs; repeat split; try done;
    intros Hinv; rewrite <- ?Hst; auto.
Qed.

(** X11.  [record_stats] stores a recordable result (any result but a
    [SUCCESS] on an incomplete path) under the pair of parser path and control
    path, replacing whatever was stored there, and leaves every other entry of
    the result map alone; a [SUCCESS] on an incomplete path leaves the map
    unchanged. *)
Theorem record_stats_result_map
    (cfg : Config) (parser_path control_path : list Edge)
    (complete : bool) (result : TestPathResult) (s : State) :
  let s' := ControlGraphVisitor.record_stats cfg parser_path control_path
              complete result s in
  (result ≠ SUCCESS \/ complete = true ->
     results s' !! (parser_path, control_path) = Some result
     /\ forall path,
          path ≠ (parser_path, control_path) ->
          results s' !! path = results s !! path)
  /\ (result = SUCCESS -> complete = false -> results s' = results s).
Proof.
  intros s'. subst s'.
  destruct (record_stats_fields cfg parser_path control_path complete
              result s) as (_ & _ & Hr & _).
  cbv zeta in Hr. rewrite Hr. unfold record_path_result. split.
  - intros Hrec.
    assert (bool_decide (result ≠ SUCCESS) || complete = true) as ->.
    { destruct Hrec as [Hne| ->];
        [by rewrite bool_decide_eq_true_2 | by rewrite orb_true_r]. }
    split; [apply lookup_insert_eq |].
    intros path Hne. by apply lookup_insert_ne.
  - intros -> ->. by rewrite bool_decide_eq_false_2 by (by intros []).
Qed.

Lemma record_stats_result_map_witness :
  results
    (ControlGraphVisitor.record_stats Examples.cfg_default
       [Examples.p_edge "start" "sink"] [Examples.e_start; Examples.e_drop]
       true NO_PACKET_FOUND
       (set_result ([Examples.p_edge "start" "sink"],
                    [Examples.e_start; Examples.e_drop])
          SUCCESS Examples.s0))
  !! ([Examples.p_edge "start" "sink"], [Examples.e_start; Examples.e_drop])
  = Some NO_PACKET_FOUND.
Proof.
  apply (record_stats_result_map Examples.cfg_default
           [Examples.p_edge "start" "sink"]
           [Examples.e_start; Examples.e_drop] true NO_PACKET_FOUND).
  by left.
Defined.

(** X12.  [record_stats] keeps the covered-edge counter in step with the
    per-edge statistics: when the counter is the number of edges with a
    nonzero visit count before the call, it is so after the call. *)
Theorem record_stats_counts_covered_edges
    (cfg : Config) (parser_path control_path : list Edge)
    (complete : bool) (result : TestPathResult) (s : State) :
  num_covered_edges s = covered (stats_per_control_path_edge s) ->
  num_covered_edges
    (ControlGraphVisitor.record_stats cfg parser_path control_path complete
       result s)
  = covered
      (stats_per_control_path_edge
         (ControlGraphVisitor.record_stats cfg parser_path control_path
            complete result s)).
Proof.
  intros Hinv.
  by apply (record_stats_fields cfg parser_path control_path complete
              result s).
Qed.

Lemma record_stats_counts_covered_edges_witness :
  num_covered_edges
    (ControlGraphVisitor.record_stats Examples.cfg_default []
       [Examples.e_start; Examples.e_accept] true SUCCESS Examples.s0)
  = covered
      (stats_per_control_path_edge
         (ControlGraphVisitor.record_stats Examples.cfg_default []
            [Examples.e_start; Examples.e_accept] true SUCCESS Examples.s0)).
Proof.
  apply (record_stats_counts_covered_edges Examples.cfg_default []
           [Examples.e_start; Examples.e_accept] true SUCCESS Examples.s0).
  reflexivity.
Defined.

(** X13.  On a [SUCCESS] on a complete path [record_stats] raises the visit
    counter of every edge by the number of times the edge occurs in the
    control path and the success-path counter by one; on any other outcome
    both are left as they were.  The tally of the result is raised by one
    exactly when the result is recordable. *)
Theorem record_stats_counters
    (cfg : Config) (parser_path control_path : list Edge)
    (complete : bool) (result : TestPathResult) (s : State) :
  let s' := ControlGraphVisitor.record_stats cfg parser_path control_path
              complete result s in
  let full := bool_decide (result = SUCCESS /\ complete = true) in
  let recordable := bool_decide (result ≠ SUCCESS \/ complete = true) in
  (forall e,
      getitem (stats_per_control_path_edge s') e
      = getitem (stats_per_control_path_edge s) e
        + (if full then length (filter (fun x => x = e) control_path) else 0))
  /\ success_path_count s'
     = (success_path_count s + (if full then 1 else 0))%Z
  /\ (forall r,
        getitem (stats s') r
        = getitem (stats s) r
          + (if recordable && bool_decide (r = result) then 1 else 0)).
Proof.
  intros s' full recordable. subst s' full recordable.
  destruct (record_stats_fields cfg parser_path control_path complete
              result s) as (Hst & _ & _ & Hsp & Hs).
  cbv zeta in Hst, Hsp, Hs. rewrite Hst, Hsp, Hs.
  unfold record_path_result.
  destruct (bool_decide_reflect (result = SUCCESS)) as [->|Hne];
    destruct complete; simpl;
    repeat case_bool_decide; simpl; try (exfalso; intuition congruence);
    (split; [intros e; rewrite ?getitem_foldl_incr; lia |]);
    (split; [lia |]);
    intros r; rewrite ?getitem_incr; simpl;
    repeat case_decide; repeat case_bool_decide; simplify_eq; lia.
Qed.

(** ** The visits of the two control-graph strategies, case by case *)

Section VisitCases.

Variable cfg : Config.
Variable solver : PathSolver.Replies.
Variable record_test_case : TestPathResult -> bool -> bool.
Variable parser_path : list Edge.
Variable get_neighbors : string -> list Edge.

Lemma record_stats_keeps_output control_path complete result s :
  let s' := ControlGraphVisitor.record_stats cfg parser_path control_path
              complete result s in
  table_solver s' = table_solver s
  /\ test_case_writer s' = test_case_writer s
  /\ num_test_cases s' = num_test_cases s.
Proof.
  assert (Hfold : forall edges s0,
             table_solver (foldl cover_edge s0 edges) = table_solver s0
             /\ test_case_writer (foldl cover_edge s0 edges)
                = test_case_writer s0
             /\ num_test_cases (foldl cover_edge s0 edges)
                = num_test_cases s0).
  { induction edges as [|e edges IH]; intros s0; simpl; [done |].
    by destruct (IH (cover_edge s0 e)) as (-> & -> & ->). }
  unfold ControlGraphVisitor.record_stats.
  destruct (Hfold control_path
              (record_full_path_len
                 (length (parser_path ++ control_path)) s))
    as (Ht & Hw & Hn).
  repeat match goal with
         | |- context [if ?b then _ else _] => destruct b
         end; simpl; rewrite ?Ht, ?Hw, ?Hn; done.
Qed.

Lemma path_visit_cases fuel control_path complete s out s' :
  PathCoverageGraphVisitor.visit cfg solver record_test_case parser_path
    fuel control_path complete s = Some (out, s') ->
  (exists e,
      ControlGraphVisitor.generate_test_case cfg solver record_test_case
        fuel control_path complete (call PathSolver.push s)
      = Some (Raise e, s')
      /\ out = Raise e)
  \/ (exists result sg,
        ControlGraphVisitor.generate_test_case cfg solver record_test_case
          fuel control_path complete (call PathSolver.push s)
        = Some (Return result, sg)
        /\ s' = ControlGraphVisitor.record_stats cfg parser_path
                  control_path complete result sg
        /\ out = Return (ControlGraphVisitor.visit_result cfg result s')).
Proof.
  unfold PathCoverageGraphVisitor.visit.
  destruct (ControlGraphVisitor.generate_test_case _ _ _ _ _ _ _)
    as [[[result|e] sg]|]; [| | done]; intros [= <- <-].
  - right. by exists result, sg.
  - left. by exists e.
Qed.

Lemma edge_visit_cases fuel control_path complete s out s' :
  EdgeCoverageGraphVisitor.visit cfg solver record_test_case parser_path
    get_neighbors fuel control_path complete s = Some (out, s') ->
  (last_item control_path = None
   /\ out = Raise IndexError /\ s' = call PathSolver.push s)
  \/ exists final_edge,
       last_item control_path = Some final_edge
       /\ ((final_edge ∈ done_edges s
            /\ Forall (fun e => 0 < getitem (edge_visits s) e) control_path
            /\ out = Return BACKTRACK /\ s' = call PathSolver.push s)
           \/ (exists e,
                 ControlGraphVisitor.generate_test_case cfg solver
                   record_test_case fuel control_path complete
                   (call PathSolver.push s) = Some (Raise e, s')
                 /\ out = Raise e)
           \/ exists result sg,
                ControlGraphVisitor.generate_test_case cfg solver
                  record_test_case fuel control_path complete
                  (call PathSolver.push s) = Some (Return result, sg)
                /\ let s2 := ControlGraphVisitor.record_stats cfg parser_path
                               control_path complete result sg in
                   (record_test_case result complete = true
                    /\ result = SUCCESS /\ complete = false
                    /\ out = Raise AssertionError /\ s' = s2)
                   \/ (record_test_case result complete = true
                       /\ result = SUCCESS /\ complete = true
                       /\ s' = set_done_edges
                                 (EdgeCoverageGraphVisitor.mark_done
                                    get_neighbors
                                    (rev (removelast control_path))
                                    ({[final_edge]} ∪ done_edges s2))
                                 (set_edge_visits
                                    (foldl incr (edge_visits s2)
                                       control_path) s2)
                       /\ out = Return
                                  (ControlGraphVisitor.visit_result cfg
                                     result s'))
                   \/ ((record_test_case result complete = false
                        \/ result ≠ SUCCESS)
                       /\ s' = s2
                       /\ out = Return
                                  (ControlGraphVisitor.visit_result cfg
                                     result s2))).
Proof.
  unfold EdgeCoverageGraphVisitor.visit.
  destruct (last_item control_path) as [final_edge|];
    [| intros [= <- <-]; by left].
  intros Hv. right. exists final_edge. split; [done |].
  assert (Hrun :
    match ControlGraphVisitor.generate_test_case cfg solver record_test_case
            fuel control_path complete (call PathSolver.push s) with
    | None => None
    | Some (Raise e, s) => Some (Raise e, s)
    | Some (Return result, s) =>
        let s := ControlGraphVisitor.record_stats cfg parser_path
                   control_path complete result s in
        if record_test_case result complete && bool_decide (result = SUCCESS)
        then
          if negb complete then Some (Raise AssertionError, s)
          else
            let s := set_edge_visits
                       (foldl incr (edge_visits s) control_path) s in
            let s := set_done_edges ({[final_edge]} ∪ done_edges s) s in
            let s := set_done_edges
                       (EdgeCoverageGraphVisitor.mark_done get_neighbors
                          (rev (removelast control_path)) (done_edges s)) s in
            Some (Return (ControlGraphVisitor.visit_result cfg result s), s)
        else Some (Return (ControlGraphVisitor.visit_result cfg result s), s)
    end = Some (out, s') ->
    (exists e,
        ControlGraphVisitor.generate_test_case cfg solver record_test_case
          fuel control_path complete (call PathSolver.push s)
        = Some (Raise e, s')
        /\ out = Raise e)
    \/ exists result sg,
         ControlGraphVisitor.generate_test_case cfg solver record_test_case
           fuel control_path complete (call PathSolver.push s)
         = Some (Return result, sg)
         /\ let s2 := ControlGraphVisitor.record_stats cfg parser_path
                        control_path complete result sg in
            (record_test_case result complete = true
             /\ result = SUCCESS /\ complete = false
             /\ out = Raise AssertionError /\ s' = s2)
            \/ (record_test_case result complete = true
                /\ result = SUCCESS /\ complete = true
                /\ s' = set_done_edges
                          (EdgeCoverageGraphVisitor.mark_done get_neighbors
                             (rev (removelast control_path))
                             ({[final_edge]} ∪ done_edges s2))
                          (set_edge_visits
                             (foldl incr (edge_visits s2) control_path) s2)
                /\ out = Return
                           (ControlGraphVisitor.visit_result cfg result s'))
            \/ ((record_test_case result complete = false
                 \/ result ≠ SUCCESS)
                /\ s' = s2
                /\ out = Return
                           (ControlGraphVisitor.visit_result cfg result s2))).
  { destruct (ControlGraphVisitor.generate_test_case _ _ _ _ _ _ _)
      as [[[result|e] sg]|]; [| | done].
    2:{ intros [= <- <-]. left. by exists e. }
    intros Hrun. right. exists result, sg. split; [done |].
    cbv zeta in Hrun |- *.
    remember (ControlGraphVisitor.record_stats cfg parser_path control_path
                complete result sg) as s2 eqn:Hs2.
    clear Hs2.
    destruct (record_test_case result complete);
      cbn [andb] in Hrun;
      [| injection Hrun as <- <-; right; right; split; [by left | done]].
    destruct (bool_decide_reflect (result = SUCCESS)) as [->|Hne];
      [| injection Hrun as <- <-; right; right; split; [by right | done]].
    destruct complete; cbn [negb] in Hrun; injection Hrun as <- <-.
    - right. left. split; [done |]. split; [done |]. split; [done |].
      split; reflexivity.
    - left. split; [done |]. split; [done |]. split; [done |].
      split; reflexivity. }
  destruct (bool_decide_reflect
              (final_edge ∈ done_edges (call PathSolver.push s)))
    as [Hdone|Hdone]; cbn [andb] in Hv.
  - destruct (forallb _ control_path) eqn:Hall.
    + left. injection Hv as <- <-. split; [done |]. split; [| done].
      apply Forall_forall. intros e He%list_elem_of_In.
      rewrite forallb_forall in Hall. by apply Hall, Nat.ltb_lt in He.
    + right. by apply Hrun.
  - right. by apply Hrun.
Qed.

End VisitCases.

Section VisitEffects.

Variable cfg : Config.
Variable solver : PathSolver.Replies.
Variable record_test_case : TestPathResult -> bool -> bool.
Variable parser_path : list Edge.
Variable get_neighbors : string -> list Edge.

Lemma occurs_in_path (e : Edge) (control_path : list Edge) :
  e ∈ control_path -> 0 < length (filter (fun x => x = e) control_path).
Proof.
  induction 1 as [|x y l Hin IH]; rewrite filter_cons.
  - rewrite decide_True by done. simpl. lia.
  - case_decide; simpl; lia.
Qed.

Lemma edge_visit_skip fuel control_path complete s final_edge :
  last_item control_path = Some final_edge ->
  final_edge ∈ done_edges s ->
  Forall (fun e => 0 < getitem (edge_visits s) e) control_path ->
  EdgeCoverageGraphVisitor.visit cfg solver record_test_case parser_path
    get_neighbors fuel control_path complete s
  = Some (Return BACKTRACK, call PathSolver.push s).
Proof.
  intros Hlast Hdone Hvisited.
  unfold EdgeCoverageGraphVisitor.visit. rewrite Hlast. cbn [done_edges call].
  rewrite bool_decide_eq_true_2 by done.
  assert (forallb (fun e => 0 <? getitem (edge_visits s) e) control_path
          = true) as Hall.
  { apply forallb_forall. intros e He%list_elem_of_In.
    apply Nat.ltb_lt. by eapply Forall_forall in Hvisited. }
  cbn [edge_visits call]. by rewrite Hall.
Qed.

(** How an [EdgeCoverageGraphVisitor.visit] relates the coverage state after
    it to the one before. *)
Lemma edge_visit_coverage fuel control_path complete s out s' :
  EdgeCoverageGraphVisitor.visit cfg solver record_test_case parser_path
    get_neighbors fuel control_path complete s = Some (out, s') ->
  (edge_visits s' = edge_visits s /\ done_edges s' = done_edges s)
  \/ (exists final_edge sg,
        last_item control_path = Some final_edge
        /\ complete = true
        /\ ControlGraphVisitor.generate_test_case cfg solver record_test_case
             fuel control_path complete (call PathSolver.push s)
           = Some (Return SUCCESS, sg)
        /\ record_test_case SUCCESS complete = true
        /\ (exists v, out = Return v)
        /\ edge_visits s' = foldl incr (edge_visits s) control_path
        /\ done_edges s'
           = EdgeCoverageGraphVisitor.mark_done get_neighbors
               (rev (removelast control_path))
               ({[final_edge]} ∪ done_edges s)).
Proof.
  intros Hv. apply edge_visit_cases in Hv.
  destruct Hv as [(_ & _ & ->)|(final_edge & Hlast & Hv)]; [by left |].
  destruct Hv as [(_ & _ & _ & ->)|[(e & Hg & _)|(result & sg & Hg & Hv)]].
  - by left.
  - left. apply generate_test_case_effects in Hg as (Hrec & _).
    destruct Hrec as (_&_&_&_&_&_&_&_&_&Hd&Hev). by split.
  - pose proof Hg as Hrec.
    apply generate_test_case_effects in Hrec as (Hrec & _).
    destruct Hrec as (_&_&_&_&_&_&_&_&_&Hd&Hev).
    cbn [done_edges edge_visits call] in Hd, Hev.
    destruct (record_stats_frame cfg parser_path control_path complete
                result sg) as (_ & Hd2 & Hev2).
    cbv zeta in Hv.
    remember (ControlGraphVisitor.record_stats cfg parser_path control_path
                complete result sg) as s2 eqn:Hs2.
    clear Hs2.
    destruct Hv as [(_ & _ & _ & _ & ->)|[(Hr & -> & -> & -> & Hout)|
                    (_ & -> & _)]].
    + left. split; congruence.
    + right. exists final_edge, sg.
      cbn [edge_visits done_edges set_done_edges set_edge_visits].
      rewrite Hev2, Hev, Hd2, Hd.
      repeat split; try done. by eexists.
    + left. split; congruence.
Qed.

End VisitEffects.

(** ** EdgeCoverageGraphVisitor: visit counts and repeated visits *)

(** X14.  A [visit] of the edge strategy never lowers a visit count: either
    [edge_visits] is unchanged, or the path is complete and the count of every
    edge has grown by the number of times the edge occurs in the control
    path; [backtrack] leaves the counts alone. *)
Theorem edge_visits_only_grow
    (cfg : Config) (solver : PathSolver.Replies)
    (record_test_case : TestPathResult -> bool -> bool)
    (parser_path : list Edge) (get_neighbors : string -> list Edge)
    (fuel : nat) (control_path : list Edge) (complete : bool)
    (s : State) (out : Outcome VisitResult) (s' : State) :
  EdgeCoverageGraphVisitor.visit cfg solver record_test_case parser_path
    get_neighbors fuel control_path complete s = Some (out, s') ->
  (forall e, getitem (edge_visits s) e <= getitem (edge_visits s') e)
  /\ (edge_visits s' = edge_visits s
      \/ (complete = true
          /\ forall e,
               getitem (edge_visits s') e
               = getitem (edge_visits s) e
                 + length (filter (fun x => x = e) control_path)))
  /\ edge_visits (EdgeCoverageGraphVisitor.backtrack s') = edge_visits s'.
Proof.
  intros Hv. apply edge_visit_coverage in Hv.
  destruct Hv as [[Hev _]|(final_edge & sg & _ & Hc & _ & _ & _ & Hev & _)].
  - rewrite Hev. split; [done |]. split; [by left | done].
  - rewrite Hev. split; [| split; [right; split; [done |] | done]].
    + intros e. rewrite getitem_foldl_incr. lia.
    + intros e. apply getitem_foldl_incr.
Qed.

Lemma edge_visits_only_grow_witness :
  (exists out s',
      EdgeCoverageGraphVisitor.visit Examples.cfg_default Examples.sat_solver
        record_test_case_policy [] Examples.graph 5
        [Examples.e_start; Examples.e_drop] true Examples.after_first_path
      = Some (out, s')
      /\ forall e,
           getitem (edge_visits Examples.after_first_path) e
           <= getitem (edge_visits s') e)
  /\ (fun r => (getitem (edge_visits r.2) Examples.e_start,
                getitem (edge_visits r.2) Examples.e_drop))
     <$> EdgeCoverageGraphVisitor.visit Examples.cfg_default
           Examples.sat_solver record_test_case_policy [] Examples.graph 5
           [Examples.e_start; Examples.e_drop] true Examples.after_first_path
     = Some (2, 1).
Proof.
  split; [| vm_compute; reflexivity].
  destruct (EdgeCoverageGraphVisitor.visit Examples.cfg_default
              Examples.sat_solver record_test_case_policy [] Examples.graph 5
              [Examples.e_start; Examples.e_drop] true
              Examples.after_first_path) as [[out s']|] eqn:Hvisit.
  - exists out, s'. split; [reflexivity |].
    exact (proj1 (edge_visits_only_grow Examples.cfg_default
                    Examples.sat_solver record_test_case_policy []
                    Examples.graph 5 [Examples.e_start; Examples.e_drop] true
                    Examples.after_first_path out s' Hvisit)).
  - exfalso.
    assert (Hsome : bool_decide (is_Some
              (EdgeCoverageGraphVisitor.visit Examples.cfg_default
                 Examples.sat_solver record_test_case_policy []
                 Examples.graph 5 [Examples.e_start; Examples.e_drop] true
                 Examples.after_first_path)) = true)
      by (vm_compute; reflexivity).
    rewrite Hvisit in Hsome. apply bool_decide_eq_true in Hsome.
    by destruct Hsome.
Defined.

(** X15.  Once a complete control path has been visited with a recorded
    [SUCCESS], the edge strategy skips it: the first [visit] returns, and
    after the [backtrack] every further [visit] of the same path answers
    [BACKTRACK] right after its push, without generating anything. *)
Theorem visited_path_is_skipped
    (cfg : Config) (solver : PathSolver.Replies)
    (record_test_case : TestPathResult -> bool -> bool)
    (parser_path : list Edge) (get_neighbors : string -> list Edge)
    (fuel : nat) (control_path : list Edge)
    (s : State) (final_edge : Edge) (sg : State) :
  last_item control_path = Some final_edge ->
  ControlGraphVisitor.generate_test_case cfg solver record_test_case fuel
    control_path true (call PathSolver.push s) = Some (Return SUCCESS, sg) ->
  record_test_case SUCCESS true = true ->
  exists v s1,
    EdgeCoverageGraphVisitor.visit cfg solver record_test_case parser_path
      get_neighbors fuel control_path true s = Some (Return v, s1)
    /\ forall fuel',
         EdgeCoverageGraphVisitor.visit cfg solver record_test_case
           parser_path get_neighbors fuel' control_path true
           (EdgeCoverageGraphVisitor.backtrack s1)
         = Some (Return BACKTRACK,
                 call PathSolver.push (EdgeCoverageGraphVisitor.backtrack s1)).
Proof.
  intros Hlast Hgen Hrec.
  unfold EdgeCoverageGraphVisitor.visit at 1. rewrite Hlast.
  destruct (bool_decide (final_edge ∈ done_edges (call PathSolver.push s))
            && forallb (fun e =>
                 0 <? getitem (edge_visits (call PathSolver.push s)) e)
                 control_path) eqn:Hskip.
  - apply andb_prop in Hskip as [Hdone%bool_decide_eq_true Hall].
    exists BACKTRACK, (call PathSolver.push s). split; [reflexivity |].
    intros fuel'. apply edge_visit_skip with final_edge; [done | done |].
    apply Forall_forall. intros e He%list_elem_of_In.
    rewrite forallb_forall in Hall. by apply Hall, Nat.ltb_lt in He.
  - rewrite Hgen. cbv zeta.
    remember (ControlGraphVisitor.record_stats cfg parser_path control_path
                true SUCCESS sg) as s2 eqn:Hs2.
    clear Hs2. rewrite Hrec. cbn [andb negb].
    rewrite bool_decide_eq_true_2 by done.
    eexists _, _. split; [reflexivity |].
    intros fuel'. apply edge_visit_skip with final_edge; [done | |].
    + cbn [done_edges EdgeCoverageGraphVisitor.backtrack call
           set_done_edges set_edge_visits].
      apply (proj1 (mark_done_spec get_neighbors
                      (rev (removelast control_path))
                      ({[final_edge]} ∪ done_edges s2))).
      apply elem_of_union_l, elem_of_singleton. reflexivity.
    + cbn [edge_visits EdgeCoverageGraphVisitor.backtrack call
           set_done_edges set_edge_visits].
      apply Forall_forall. intros e He.
      rewrite getitem_foldl_incr.
      pose proof (occurs_in_path e control_path He). lia.
Qed.

Lemma visited_path_is_skipped_witness :
  exists v s1,
    EdgeCoverageGraphVisitor.visit Examples.cfg_default Examples.sat_solver
      record_test_case_policy [] Examples.graph 5
      [Examples.e_start; Examples.e_accept] true Examples.s0
    = Some (Return v, s1)
    /\ forall fuel',
         EdgeCoverageGraphVisitor.visit Examples.cfg_default
           Examples.sat_solver record_test_case_policy [] Examples.graph
           fuel' [Examples.e_start; Examples.e_accept] true
           (EdgeCoverageGraphVisitor.backtrack s1)
         = Some (Return BACKTRACK,
                 call PathSolver.push (EdgeCoverageGraphVisitor.backtrack s1)).
Proof.
  eapply (visited_path_is_skipped Examples.cfg_default Examples.sat_solver
            record_test_case_policy [] Examples.graph 5
            [Examples.e_start; Examples.e_accept] Examples.s0
            Examples.e_accept);
    [reflexivity | vm_compute; reflexivity | reflexivity].
Defined.

(** ** Nested visits *)

Lemma run_nested
    (cfg : Config) (solver : PathSolver.Replies)
    (record_test_case : TestPathResult -> bool -> bool)
    (parser_path : list Edge) (get_neighbors : string -> list Edge)
    (strategy : Strategy) (fuel : nat) (requests : list Request) :
  forall (s s' : State) (depth : nat) (stack : list nat) (position : nat),
    run cfg solver record_test_case parser_path get_neighbors strategy fuel
      requests s = Some s' ->
    nested depth requests = true ->
    depth <= length stack ->
    exists calls stack',
      path_solver s' = path_solver s ++ calls
      /\ PathSolver.replay stack position calls = Some stack'
      /\ length stack' + backtracks_in requests
         = length stack + visits_in requests.
Proof.
  unfold backtracks_in, visits_in.
  induction requests as [|[control_path complete|] requests IH];
    intros s s' depth stack position Hrun Hnested Hdepth.
  - injection Hrun as <-. exists [], stack.
    rewrite app_nil_r. simpl. split; [done |]. split; [done | lia].
  - cbn [run] in Hrun.
    destruct (visit _ _ _ _ _ _ _ _ _ _) as [[[v|e] s1]|] eqn:Hv; try done.
    apply visit_pushes_once in Hv as (inner & Hinner & Hneutral).
    cbn [nested] in Hnested.
    destruct (IH s1 s' (S depth) (position :: stack)
                (position + length (PathSolver.push :: inner))
                Hrun Hnested ltac:(simpl; lia))
      as (calls & stack' & Hcalls & Hreplay & Hlen).
    exists ((PathSolver.push :: inner) ++ calls), stack'.
    split; [by rewrite Hcalls, Hinner, <- app_assoc |].
    split.
    + rewrite replay_app. cbn [PathSolver.replay].
      by rewrite (Hneutral (position :: stack) (S position)).
    + rewrite !filter_cons.
      rewrite decide_False by discriminate.
      rewrite decide_True by discriminate.
      simpl in Hlen |- *. lia.
  - cbn [run nested] in Hrun, Hnested.
    destruct depth as [|depth]; [done |].
    destruct stack as [|top stack]; [simpl in Hdepth; lia |].
    destruct (IH (backtrack strategy s) s' depth stack (S position)
                Hrun Hnested ltac:(simpl in Hdepth; lia))
      as (calls & stack' & Hcalls & Hreplay & Hlen).
    exists ([PathSolver.pop] ++ calls), stack'.
    split; [by rewrite Hcalls, backtrack_pops_once, <- app_assoc |].
    split; [done |].
    rewrite !filter_cons.
    rewrite decide_True by reflexivity.
    rewrite decide_False by (intros Hne; apply Hne; reflexivity).
    simpl in Hlen |- *. lia.
Qed.

(** X16.  Checkpoints nest like the traversal.  For both control-graph
    strategies and any sequence of [visit] and [backtrack] calls in which no
    [backtrack] comes without an open [visit], run to its end from a solver
    without open checkpoints: every [pop] finds a checkpoint to restore, and
    the number of checkpoints left open is the number of visits minus the
    number of backtracks. *)
Theorem nested_visits_keep_checkpoints_nested
    (cfg : Config) (solver : PathSolver.Replies)
    (record_test_case : TestPathResult -> bool -> bool)
    (parser_path : list Edge) (get_neighbors : string -> list Edge)
    (strategy : Strategy) (fuel : nat) (requests : list Request)
    (s s' : State) :
  run cfg solver record_test_case parser_path get_neighbors strategy fuel
    requests s = Some s' ->
  nested 0 requests = true ->
  exists calls open,
    path_solver s' = path_solver s ++ calls
    /\ PathSolver.replay [] (length (path_solver s)) calls = Some open
    /\ length open + backtracks_in requests = visits_in requests.
Proof.
  intros Hrun Hnested.
  destruct (run_nested cfg solver record_test_case parser_path get_neighbors
              strategy fuel requests s s' 0 [] (length (path_solver s))
              Hrun Hnested ltac:(done))
    as (calls & open & Hcalls & Hreplay & Hlen).
  by exists calls, open.
Qed.

Lemma nested_visits_keep_checkpoints_nested_witness :
  (exists s',
      run Examples.cfg_default Examples.sat_solver record_test_case_policy []
        Examples.graph EdgeCoverage 5 Examples.descent Examples.s0 = Some s'
      /\ exists calls open,
           path_solver s' = path_solver Examples.s0 ++ calls
           /\ PathSolver.replay [] (length (path_solver Examples.s0)) calls
              = Some open
           /\ length open + backtracks_in Examples.descent
              = visits_in Examples.descent)
  /\ (fun s => PathSolver.replay [] 0 (path_solver s))
     <$> run Examples.cfg_default Examples.sat_solver record_test_case_policy
           [] Examples.graph EdgeCoverage 5 Examples.descent Examples.s0
     = Some (Some []).
Proof.
  split; [| vm_compute; reflexivity].
  destruct (run Examples.cfg_default Examples.sat_solver
              record_test_case_policy [] Examples.graph EdgeCoverage 5
              Examples.descent Examples.s0) as [s'|] eqn:Hrun.
  - exists s'. split; [reflexivity |].
    exact (nested_visits_keep_checkpoints_nested Examples.cfg_default
             Examples.sat_solver record_test_case_policy [] Examples.graph
             EdgeCoverage 5 Examples.descent Examples.s0 s' Hrun eq_refl).
  - exfalso.
    assert (Hsome : bool_decide (is_Some
              (run Examples.cfg_default Examples.sat_solver
                 record_test_case_policy [] Examples.graph EdgeCoverage 5
                 Examples.descent Examples.s0)) = true)
      by (vm_compute; reflexivity).
    rewrite Hrun in Hsome. apply bool_decide_eq_true in Hsome.
    by destruct Hsome.
Defined.

(** ** What a visit answers *)

Lemma visit_result_cases (cfg : Config) (result : TestPathResult) (s : State) :
  (reached (num_test_cases s) (get_num_test_cases cfg)
   /\ ControlGraphVisitor.visit_result cfg result s = ABORT)
  \/ (¬ reached (num_test_cases s) (get_num_test_cases cfg)
      /\ reached (success_path_count s) (get_max_paths_per_parser_path cfg)
      /\ ControlGraphVisitor.visit_result cfg result s = BACKTRACK)
  \/ (¬ reached (num_test_cases s) (get_num_test_cases cfg)
      /\ ¬ reached (success_path_count s) (get_max_paths_per_parser_path cfg)
      /\ ControlGraphVisitor.visit_result cfg result s
         = if decide (result = SUCCESS) then CONTINUE else BACKTRACK).
Proof.
  unfold ControlGraphVisitor.visit_result.
  destruct (ge_than_not_none (Some (num_test_cases s)) _) eqn:H1.
  { left. by apply ge_than_not_none_reached in H1. }
  apply ge_than_not_none_not_reached in H1. right.
  destruct (ge_than_not_none (Some (success_path_count s)) _) eqn:H2.
  { left. by apply ge_than_not_none_reached in H2. }
  apply ge_than_not_none_not_reached in H2. right.
  split; [done |]. split; [done |].
  destruct (decide (result = SUCCESS)) as [->|Hne]; [done |].
  by rewrite bool_decide_eq_true_2.
Qed.

Lemma reached_mono (counter counter' : Z) (cap : option Z) :
  (counter <= counter')%Z -> reached counter cap -> reached counter' cap.
Proof. intros Hle (c & -> & Hc). exists c. split; [done | lia]. Qed.

Section VisitCounters.

Variable cfg : Config.
Variable solver : PathSolver.Replies.
Variable record_test_case : TestPathResult -> bool -> bool.
Variable parser_path : list Edge.
Variable get_neighbors : string -> list Edge.

(** The state in which a visit that generated and returned a result works out
    its answer has counters no smaller than those the visit started with. *)
Lemma generated_counters_grow fuel control_path complete s result sg :
  ControlGraphVisitor.generate_test_case cfg solver record_test_case fuel
    control_path complete (call PathSolver.push s)
  = Some (Return result, sg) ->
  let s2 := ControlGraphVisitor.record_stats cfg parser_path control_path
              complete result sg in
  (num_test_cases s <= num_test_cases s2)%Z
  /\ (success_path_count s <= success_path_count s2)%Z.
Proof.
  intros Hg s2. subst s2.
  apply generate_test_case_effects in Hg
    as (Hrec & _ & _ & written & _ & _ & Hn & _).
  destruct Hrec as (_&_&_&_&_&_&_&_&Hsp&_).
  cbn [num_test_cases success_path_count call] in Hn, Hsp.
  destruct (record_stats_keeps_output cfg parser_path control_path complete
              result sg) as (_ & _ & Hn2).
  destruct (record_stats_fields cfg parser_path control_path complete
              result sg) as (_ & _ & _ & Hsp2 & _).
  cbv zeta in Hn2, Hsp2. rewrite Hn2, Hsp2, Hn, Hsp.
  destruct (_ && _); lia.
Qed.

Lemma visit_answer strategy fuel control_path complete s v s' :
  visit cfg solver record_test_case parser_path get_neighbors strategy fuel
    control_path complete s = Some (Return v, s') ->
  (strategy = EdgeCoverage /\ v = BACKTRACK /\ s' = call PathSolver.push s)
  \/ exists result sg,
       ControlGraphVisitor.generate_test_case cfg solver record_test_case
         fuel control_path complete (call PathSolver.push s)
       = Some (Return result, sg)
       /\ v = ControlGraphVisitor.visit_result cfg result s'
       /\ (num_test_cases s <= num_test_cases s')%Z
       /\ (success_path_count s <= success_path_count s')%Z
       /\ results s'
          = results (ControlGraphVisitor.record_stats cfg parser_path
                       control_path complete result sg).
Proof.
  destruct strategy; cbn [visit]; intros Hv.
  - right. apply path_visit_cases in Hv as [(e & _ & [=])|
                                            (result & sg & Hg & -> & [= ->])].
    exists result, sg. split; [done |]. split; [done |].
    destruct (generated_counters_grow fuel control_path complete s result sg
                Hg) as [Hn Hsp].
    by repeat split.
  - apply edge_visit_cases in Hv.
    destruct Hv as [(_ & [=] & _)|(final_edge & _ & Hv)].
    destruct Hv as [(_ & _ & [= <-] & ->)|[(e & _ & [=])|
                    (result & sg & Hg & Hv)]]; [by left |].
    right. exists result, sg. split; [done |].
    destruct (generated_counters_grow fuel control_path complete s result sg
                Hg) as [Hn Hsp].
    cbv zeta in Hv, Hn, Hsp.
    remember (ControlGraphVisitor.record_stats cfg parser_path control_path
                complete result sg) as s2 eqn:Hs2.
    clear Hs2.
    destruct Hv as [(_ & _ & _ & [=] & _)|[(_ & _ & _ & -> & [= ->])|
                    (_ & -> & [= ->])]]; by repeat split.
Qed.

End VisitCounters.

(** X17.  For both strategies a [visit] answers [CONTINUE] only for a path
    whose [generate_test_case] returned [SUCCESS], and only while neither the
    global cap nor the per-parser-path cap has been reached by the counters
    the visit leaves behind. *)
Theorem visit_continues_only_on_success
    (cfg : Config) (solver : PathSolver.Replies)
    (record_test_case : TestPathResult -> bool -> bool)
    (parser_path : list Edge) (get_neighbors : string -> list Edge)
    (strategy : Strategy) (fuel : nat) (control_path : list Edge)
    (complete : bool) (s s' : State) :
  visit cfg solver record_test_case parser_path get_neighbors strategy fuel
    control_path complete s = Some (Return CONTINUE, s') ->
  (exists sg,
      ControlGraphVisitor.generate_test_case cfg solver record_test_case fuel
        control_path complete (call PathSolver.push s)
      = Some (Return SUCCESS, sg))
  /\ ¬ reached (num_test_cases s') (get_num_test_cases cfg)
  /\ ¬ reached (success_path_count s') (get_max_paths_per_parser_path cfg).
Proof.
  intros Hv. apply visit_answer in Hv.
  destruct Hv as [(_ & [=] & _)|(result & sg & Hg & Hres & _)].
  destruct (visit_result_cases cfg result s')
    as [(_ & Ha)|[(_ & _ & Hb)|(H1 & H2 & Hc)]]; try congruence.
  destruct (decide (result = SUCCESS)) as [->|Hne]; [| congruence].
  split; [by exists sg | done].
Qed.

Lemma visit_continues_only_on_success_witness :
  exists s',
    visit Examples.cfg_default Examples.quick_solver record_test_case_policy
      [] Examples.graph PathCoverage 5 [Examples.e_start] false Examples.s0
    = Some (Return CONTINUE, s')
    /\ (exists sg,
          ControlGraphVisitor.generate_test_case Examples.cfg_default
            Examples.quick_solver record_test_case_policy 5
            [Examples.e_start] false (call PathSolver.push Examples.s0)
          = Some (Return SUCCESS, sg))
    /\ ¬ reached (num_test_cases s') (get_num_test_cases Examples.cfg_default)
    /\ ¬ reached (success_path_count s')
          (get_max_paths_per_parser_path Examples.cfg_default).
Proof.
  eexists. split; [vm_compute; reflexivity |].
  eapply (visit_continues_only_on_success Examples.cfg_default
            Examples.quick_solver record_test_case_policy [] Examples.graph
            PathCoverage 5 [Examples.e_start] false Examples.s0).
  vm_compute. reflexivity.
Defined.

(** X18.  A cap that has been reached stays reached.  When the global
    test-case counter has reached the global cap before a [visit], the visit
    does not answer [CONTINUE] (the path strategy answers [ABORT]) and the cap
    is still reached afterwards; when the success-path counter has reached
    the per-parser-path cap, the visit does not answer [CONTINUE] either. *)
Theorem reached_caps_stop_the_descent
    (cfg : Config) (solver : PathSolver.Replies)
    (record_test_case : TestPathResult -> bool -> bool)
    (parser_path : list Edge) (get_neighbors : string -> list Edge)
    (strategy : Strategy) (fuel : nat) (control_path : list Edge)
    (complete : bool) (s : State) (v : VisitResult) (s' : State) :
  visit cfg solver record_test_case parser_path get_neighbors strategy fuel
    control_path complete s = Some (Return v, s') ->
  (reached (num_test_cases s) (get_num_test_cases cfg) ->
     v ≠ CONTINUE
     /\ reached (num_test_cases s') (get_num_test_cases cfg)
     /\ (strategy = PathCoverage -> v = ABORT))
  /\ (reached (success_path_count s) (get_max_paths_per_parser_path cfg) ->
      v ≠ CONTINUE
      /\ reached (success_path_count s')
           (get_max_paths_per_parser_path cfg)).
Proof.
  intros Hv. apply visit_answer in Hv.
  destruct Hv as [(-> & -> & ->)|(result & sg & _ & -> & Hn & Hsp & _)].
  - split; intros Hr; (split; [done |]); [split; [done | done] | done].
  - split; intros Hr.
    + apply (reached_mono _ _ _ Hn) in Hr.
      destruct (visit_result_cases cfg result s')
        as [(_ & ->)|[(H1 & _)|(H1 & _)]]; done.
    + apply (reached_mono _ _ _ Hsp) in Hr.
      destruct (visit_result_cases cfg result s')
        as [(_ & ->)|[(_ & _ & ->)|(_ & H2 & _)]]; done.
Qed.

Lemma reached_caps_stop_the_descent_witness :
  exists s',
    visit (mkConfig 0 (Some 1%Z) (Some 1%Z) false None false false)
      Examples.quick_solver record_test_case_policy [] Examples.graph
      PathCoverage 5 [Examples.e_start] false (write 7 Examples.s0)
    = Some (Return ABORT, s')
    /\ ABORT ≠ CONTINUE
    /\ reached (num_test_cases s') (Some 1%Z)
    /\ (PathCoverage = PathCoverage -> ABORT = ABORT).
Proof.
  eexists. split; [vm_compute; reflexivity |].
  refine (proj1 (reached_caps_stop_the_descent
            (mkConfig 0 (Some 1%Z) (Some 1%Z) false None false false)
            Examples.quick_solver record_test_case_policy [] Examples.graph
            PathCoverage 5 [Examples.e_start] false (write 7 Examples.s0)
            ABORT _ _) _).
  - vm_compute. reflexivity.
  - exists 1%Z. split; [reflexivity | simpl; lia].
Defined.



(** ** EdgeCoverageGraphVisitor.preprocess_edges: nothing lost, least first *)

Lemma sorted_head_least {A} (key : A -> nat) (l : list A) (x : A)
    (rest : list A) :
  sorted key l = x :: rest -> forall y, y ∈ l -> key x <= key y.
Proof.
  intros Hs y Hy.
  pose proof (sorted_ascending key l) as Hasc. rewrite Hs in Hasc.
  apply StronglySorted_inv in Hasc as [_ Hall].
  rewrite <- (sorted_perm key l), Hs in Hy.
  apply elem_of_cons in Hy as [->|Hy]; [done |].
  by eapply Forall_forall in Hall.
Qed.

Lemma sorted_nil_inv {A} (key : A -> nat) (l : list A) :
  sorted key l = [] -> l = [].
Proof.
  intros Hs. apply Permutation_nil_r. by rewrite <- (sorted_perm key l), Hs.
Qed.

Lemma last_rev_cons {A} (x : A) (l : list A) : last_item (rev (x :: l)) = Some x.
Proof. unfold last_item. simpl. apply last_snoc. Qed.

(** X20.  [preprocess_edges] of the edge strategy neither drops nor adds a
    candidate: what it returns is a permutation of the candidate edges, with
    every done edge ahead of every edge that is not done. *)
Theorem edge_preprocess_edges_keeps_every_candidate
    (s : State) (path edges : list Edge) :
  EdgeCoverageGraphVisitor.preprocess_edges s path edges ≡ₚ edges
  /\ exists done_first not_done_last,
       EdgeCoverageGraphVisitor.preprocess_edges s path edges
       = done_first ++ not_done_last
       /\ Forall (fun e => e ∈ done_edges s) done_first
       /\ Forall (fun e => e ∉ done_edges s) not_done_last.
Proof.
  unfold EdgeCoverageGraphVisitor.preprocess_edges.
  rewrite partition_loop. simpl.
  set (visits := getitem (edge_visits s)).
  set (done := filter (fun e => e ∈ done_edges s) edges).
  set (non_done := filter (fun e => e ∉ done_edges s) edges).
  split.
  - rewrite <- Permutation_rev, !sorted_perm.
    rewrite Permutation_app_comm. apply filter_app_complement.
  - exists (rev (sorted visits done)), (rev (sorted visits non_done)).
    split; [by rewrite rev_app_distr |].
    split; apply Forall_forall; intros e He;
      apply list_elem_of_In, in_rev, list_elem_of_In in He;
      rewrite sorted_perm in He;
      by apply list_elem_of_filter in He as [He _].
Qed.

(** X21.  The last edge of what [preprocess_edges] returns, which is the one a
    LIFO stack hands out first, is a least-visited edge among the candidates
    that are not done; when every candidate is done it is a least-visited
    candidate. *)
Theorem edge_preprocess_edges_least_visited_last
    (s : State) (path edges : list Edge) (e : Edge) :
  e ∈ edges ->
  exists first,
    last_item (EdgeCoverageGraphVisitor.preprocess_edges s path edges)
    = Some first
    /\ first ∈ edges
    /\ (e ∉ done_edges s ->
        (first ∉ done_edges s)
        /\ forall e',
             e' ∈ edges -> e' ∉ done_edges s ->
             getitem (edge_visits s) first <= getitem (edge_visits s) e')
    /\ ((forall e', e' ∈ edges -> e' ∈ done_edges s) ->
        forall e',
          e' ∈ edges ->
          getitem (edge_visits s) first <= getitem (edge_visits s) e').
Proof.
  intros He.
  unfold EdgeCoverageGraphVisitor.preprocess_edges.
  rewrite partition_loop. simpl.
  set (visits := getitem (edge_visits s)).
  set (done := filter (fun e => e ∈ done_edges s) edges).
  set (non_done := filter (fun e => e ∉ done_edges s) edges).
  destruct (sorted visits non_done) as [|x rest] eqn:Hnd.
  - (* every candidate is done *)
    apply sorted_nil_inv in Hnd.
    assert (Hall : forall e', e' ∈ edges -> e' ∈ done_edges s).
    { intros e' He'. destruct (decide (e' ∈ done_edges s)) as [|Hn]; [done |].
      assert (e' ∈ non_done) as Hin
        by (apply list_elem_of_filter; by split).
      rewrite Hnd in Hin. by apply elem_of_nil in Hin. }
    assert (Hd : e ∈ done)
      by (apply list_elem_of_filter; split; [by apply Hall | done]).
    destruct (sorted visits done) as [|x rest] eqn:Hsd.
    { apply sorted_nil_inv in Hsd. rewrite Hsd in Hd.
      by apply elem_of_nil in Hd. }
    exists x. cbn [app]. split; [apply last_rev_cons |].
    assert (Hx : x ∈ done).
    { rewrite <- (sorted_perm visits done), Hsd. apply list_elem_of_here. }
    split; [by apply list_elem_of_filter in Hx as [_ ?] |].
    split; [intros Hn; by specialize (Hall e He) |].
    intros _ e' He'.
    apply (sorted_head_least visits done x rest Hsd).
    apply list_elem_of_filter. split; [by apply Hall | done].
  - exists x.
    change ((x :: rest) ++ sorted visits done)
      with (x :: (rest ++ sorted visits done)).
    split; [apply last_rev_cons |].
    assert (Hx : x ∈ non_done).
    { rewrite <- (sorted_perm visits non_done), Hnd. apply list_elem_of_here. }
    apply list_elem_of_filter in Hx as [Hxn Hxe].
    split; [done |]. split.
    + intros _. split; [done |]. intros e' He' Hn'.
      apply (sorted_head_least visits non_done x rest Hnd).
      apply list_elem_of_filter. by split.
    + intros Hall. by specialize (Hall x Hxe).
Qed.

Lemma edge_preprocess_edges_least_visited_last_witness :
  exists first,
    last_item
      (EdgeCoverageGraphVisitor.preprocess_edges Examples.after_first_path
         [Examples.e_start] [Examples.e_accept; Examples.e_drop])
    = Some first
    /\ first ∈ [Examples.e_accept; Examples.e_drop]
    /\ (Examples.e_drop ∉ done_edges Examples.after_first_path ->
        (first ∉ done_edges Examples.after_first_path)
        /\ forall e',
             e' ∈ [Examples.e_accept; Examples.e_drop] ->
             e' ∉ done_edges Examples.after_first_path ->
             getitem (edge_visits Examples.after_first_path) first
             <= getitem (edge_visits Examples.after_first_path) e')
    /\ ((forall e',
            e' ∈ [Examples.e_accept; Examples.e_drop] ->
            e' ∈ done_edges Examples.after_first_path) ->
        forall e',
          e' ∈ [Examples.e_accept; Examples.e_drop] ->
          getitem (edge_visits Examples.after_first_path) first
          <= getitem (edge_visits Examples.after_first_path) e').
Proof.
  apply (edge_preprocess_edges_least_visited_last Examples.after_first_path
           [Examples.e_start] [Examples.e_accept; Examples.e_drop]
           Examples.e_drop).
  apply list_elem_of_further, list_elem_of_here.
Defined.
